(** * smartlock: the resource-allocation graph of klock.c

    A shallow embedding of [klock.c].  The two global linked lists
    [threads] and [resources] are kept as lists in creation order (nodes
    are only ever appended at the tail and never unlinked before
    [cleanup]), and a pointer to a node is the position of that node in
    its list; [NULL] is [None].  A [SmartLock*] is the address of the
    lock, an integer.  Dereferencing [NULL] is the fault [None] of the
    operation that does it.

    A thread is named by the [int tid] under which [lock] registers it;
    different threads are taken to have different ids.  [cleanup] frees
    every node and is the last call of a program: it is not part of the
    transition system below. *)

From stdpp Require Import base option list gmap.
From Stdlib Require Import ZArith Lia.

(** ** Nodes (klock.c, lines 20-47) *)

(** [struct thread_t]: [next] is the tail of the list. *)
Record thread_t := mk_thread {
  request : option nat;
  tid : Z;
  thr_travelled : bool
}.

(** [struct resource_t]: [next] is the tail of the list. *)
Record resource_t := mk_resource {
  assignment : option nat;
  res_lock : Z;
  res_travelled : bool
}.

(** The globals [threads] and [resources]. *)
Record rag := mk_rag {
  threads : list thread_t;
  resources : list resource_t
}.

Definition set_request (r : option nat) (th : thread_t) : thread_t :=
  mk_thread r (tid th) (thr_travelled th).
Definition set_tid (t : Z) (th : thread_t) : thread_t :=
  mk_thread (request th) t (thr_travelled th).
Definition set_thr_travelled (b : bool) (th : thread_t) : thread_t :=
  mk_thread (request th) (tid th) b.
Definition set_assignment (a : option nat) (r : resource_t) : resource_t :=
  mk_resource a (res_lock r) (res_travelled r).
Definition set_res_lock (l : Z) (r : resource_t) : resource_t :=
  mk_resource (assignment r) l (res_travelled r).
Definition set_res_travelled (b : bool) (r : resource_t) : resource_t :=
  mk_resource (assignment r) (res_lock r) b.

Definition with_threads (ts : list thread_t) (g : rag) : rag :=
  mk_rag ts (resources g).
Definition with_resources (rs : list resource_t) (g : rag) : rag :=
  mk_rag (threads g) rs.

(** [threads = NULL; resources = NULL] *)
Definition empty_rag : rag := mk_rag [] [].

(** ** Graph store (lines 149-235) *)

(** The [NULL] lock pointer of a freshly created resource. *)
Definition NULL : Z := 0%Z.

Definition rag_createResource : resource_t := mk_resource None NULL false.

Definition rag_createThread : thread_t := mk_thread None 0%Z false.

(** Walk to the tail, link the new node, then store the lock in it. *)
Definition rag_addResource (l : Z) (g : rag) : rag :=
  let newResource := rag_createResource in
  with_resources (resources g ++ [set_res_lock l newResource]) g.

Definition rag_addThread (t : Z) (g : rag) : rag :=
  let newThread := rag_createThread in
  with_threads (threads g ++ [set_tid t newThread]) g.

(** The scan of [rag_getResource]: first node whose lock is [l]. *)
Fixpoint scan_resources (l : Z) (rs : list resource_t) : option nat :=
  match rs with
  | [] => None
  | curr :: next =>
      if decide (res_lock curr = l) then Some 0
      else S <$> scan_resources l next
  end.

Fixpoint scan_threads (t : Z) (ts : list thread_t) : option nat :=
  match ts with
  | [] => None
  | curr :: next =>
      if decide (tid curr = t) then Some 0
      else S <$> scan_threads t next
  end.

Definition rag_getResource (l : Z) (g : rag) : option nat :=
  scan_resources l (resources g).

Definition rag_getThread (t : Z) (g : rag) : option nat :=
  scan_threads t (threads g).

(** ** Edge operations (lines 237-316)

    Each returns [None] when it dereferences a [NULL] lookup result. *)

Definition rag_isAssigned (l : Z) (g : rag) : option bool :=
  resourceToCheck ← rag_getResource l g;
  r ← resources g !! resourceToCheck;
  Some (bool_decide (assignment r ≠ None)).

Definition rag_setRequest (t : Z) (l : Z) (g : rag) : option rag :=
  let threadToSet := rag_getThread t g in
  let resourceToSet := rag_getResource l g in
  i ← threadToSet;
  Some (with_threads (alter (set_request resourceToSet) i (threads g)) g).

Definition rag_setAssignment (t : Z) (l : Z) (g : rag) : option rag :=
  let resourceToSet := rag_getResource l g in
  let threadToSet := rag_getThread t g in
  j ← resourceToSet;
  Some (with_resources (alter (set_assignment threadToSet) j (resources g)) g).

Definition rag_removeRequest (t : Z) (g : rag) : option rag :=
  let threadToRemove := rag_getThread t g in
  i ← threadToRemove;
  Some (with_threads (alter (set_request None) i (threads g)) g).

Definition rag_removeAssignment (l : Z) (g : rag) : option rag :=
  let resourceToRemove := rag_getResource l g in
  j ← resourceToRemove;
  Some (with_resources (alter (set_assignment None) j (resources g)) g).

(** [rag_isNewThread] (lines 355-370) *)
Fixpoint scan_isNew (t : Z) (ts : list thread_t) : bool :=
  match ts with
  | [] => true
  | curr :: next => if decide (tid curr = t) then false else scan_isNew t next
  end.

Definition rag_isNewThread (t : Z) (g : rag) : bool := scan_isNew t (threads g).

(** ** Cycle detector (lines 372-413) *)

(** [currentNode->travelled = true] and [tempResource->travelled = true] *)
Definition mark_thread (i : nat) (g : rag) : rag :=
  with_threads (alter (set_thr_travelled true) i (threads g)) g.
Definition mark_resource (j : nat) (g : rag) : rag :=
  with_resources (alter (set_res_travelled true) j (resources g)) g.

(** The recursion of [rag_depthFirstSearch] is not structural: it is
    bounded by [fuel], and [None] also stands for a reference to a node
    that is not in the graph, which a pointer of the program never is. *)
Fixpoint rag_depthFirstSearch (fuel : nat) (currentNode : option nat) (g : rag)
  : option (bool * rag) :=
  match fuel with
  | O => None
  | S fuel' =>
      match currentNode with
      | None => Some (false, g)
      | Some i =>
          th ← threads g !! i;
          if thr_travelled th then Some (true, g)
          else
            let g1 := mark_thread i g in
            match request th with
            | None => Some (false, g1)
            | Some j =>
                r ← resources g1 !! j;
                if res_travelled r then Some (true, g1)
                else
                  let g2 := mark_resource j g1 in
                  let nextThread := assignment r in
                  rag_depthFirstSearch fuel' nextThread g2
            end
      end
  end.

(** The two reset loops at the end of [rag_checkForCycles]. *)
Definition clear_travelled (g : rag) : rag :=
  mk_rag (set_thr_travelled false <$> threads g)
         (set_res_travelled false <$> resources g).

Definition rag_checkForCycles (t : Z) (g : rag) : option (bool * rag) :=
  let threadToSearch := rag_getThread t g in
  '(isCycle, g1) ← rag_depthFirstSearch (S (length (threads g))) threadToSearch g;
  Some (isCycle, clear_travelled g1).

(** ** Program state and the lock protocol (lines 49-125)

    [lock] is a sequence of calls into the graph store around the wait
    on [lock->mutex]; different threads interleave between these calls.
    Each call into the graph store is taken as one transition, which is
    what its read and write permissions are meant to achieve: a node
    found in the read phase of a call is still the node found in its
    write phase, because nodes are appended and never unlinked.  The
    admission scheme that hands out these permissions is modelled on its
    own in [Admission]. *)

(** Where a thread stands inside [lock(l)]. *)
Inductive pc :=
| Outside (ret : option Z)        (* not in lock(); last value returned *)
| AtIsNewThread (l : Z)           (* line 95 *)
| AtAddThread (l : Z)             (* line 96 *)
| AtSetRequest (l : Z)            (* line 100 *)
| AtCheckForCycles (l : Z)        (* line 103 *)
| AtSetAssignment (l : Z)         (* lines 105-106 *)
| AtMutexLock (l : Z)             (* line 107 *)
| AtRejectRemoveRequest (l : Z)   (* lines 111-112 *)
| AtGrantRemoveRequest (l : Z).   (* lines 115-116 *)

Record state := mk_state {
  graph : rag;
  firstRun : bool;
  sem_inits : nat;          (* how often lines 79-80 have run *)
  mutexes : gmap Z bool;    (* lock address -> lock->mutex is locked *)
  pcs : gmap Z pc           (* tid -> control point *)
}.

Definition with_graph (g : rag) (s : state) : state :=
  mk_state g (firstRun s) (sem_inits s) (mutexes s) (pcs s).
Definition with_mutex (l : Z) (b : bool) (s : state) : state :=
  mk_state (graph s) (firstRun s) (sem_inits s) (<[l := b]> (mutexes s)) (pcs s).
Definition set_pc (t : Z) (p : pc) (s : state) : state :=
  mk_state (graph s) (firstRun s) (sem_inits s) (mutexes s) (<[t := p]> (pcs s)).

Definition pc_of (t : Z) (s : state) : pc :=
  default (Outside None) (pcs s !! t).

Definition init_state : state := mk_state empty_rag true 0 ∅ ∅.

(** [init_lock] (lines 74-86) *)
Definition init_lock (l : Z) (s : state) : state :=
  let s1 :=
    if firstRun s
    then mk_state (graph s) false (S (sem_inits s)) (mutexes s) (pcs s)
    else s in
  let s2 := with_mutex l false s1 in
  with_graph (rag_addResource l (graph s2)) s2.

(** [unlock] (lines 120-125) *)
Definition unlock (l : Z) (s : state) : option state :=
  g ← rag_removeAssignment l (graph s);
  Some (with_mutex l false (with_graph g s)).

(** What the next statement of [lock] does for the thread executing it;
    [int tid = pthread_self()] is the [t] of the thread, and the
    [printf] of line 105 is left out. *)
Inductive outcome :=
| Next (s : state)
| Blocked            (* suspended in pthread_mutex_lock *)
| Fault              (* NULL dereferenced, or mutex never initialised *)
| Idle.              (* the thread is not inside lock() *)

Definition lock_step (t : Z) (s : state) : outcome :=
  match pc_of t s with
  | Outside _ => Idle
  | AtIsNewThread l =>
      Next (set_pc t (if rag_isNewThread t (graph s)
                      then AtAddThread l else AtSetRequest l) s)
  | AtAddThread l =>
      Next (set_pc t (AtSetRequest l) (with_graph (rag_addThread t (graph s)) s))
  | AtSetRequest l =>
      match rag_setRequest t l (graph s) with
      | None => Fault
      | Some g => Next (set_pc t (AtCheckForCycles l) (with_graph g s))
      end
  | AtCheckForCycles l =>
      match rag_checkForCycles t (graph s) with
      | None => Fault
      | Some (isCycle, g) =>
          Next (set_pc t (if isCycle then AtRejectRemoveRequest l
                          else AtSetAssignment l) (with_graph g s))
      end
  | AtSetAssignment l =>
      match rag_setAssignment t l (graph s) with
      | None => Fault
      | Some g => Next (set_pc t (AtMutexLock l) (with_graph g s))
      end
  | AtMutexLock l =>
      match mutexes s !! l with
      | None => Fault
      | Some true => Blocked
      | Some false => Next (set_pc t (AtGrantRemoveRequest l) (with_mutex l true s))
      end
  | AtRejectRemoveRequest l =>
      match rag_removeRequest t (graph s) with
      | None => Fault
      | Some g => Next (set_pc t (Outside (Some 0%Z)) (with_graph g s))
      end
  | AtGrantRemoveRequest l =>
      match rag_removeRequest t (graph s) with
      | None => Fault
      | Some g => Next (set_pc t (Outside (Some 1%Z)) (with_graph g s))
      end
  end.

(** ** Interleavings *)

(** [init_lock] and [unlock] do not look at the calling thread, and
    neither can block: each is one transition. *)
Inductive action :=
| Init (l : Z)        (* a thread outside lock() runs init_lock(l) *)
| Unlock (l : Z)      (* a thread outside lock() runs unlock(l) *)
| Lock (t l : Z)      (* thread t enters lock(l) *)
| Step (t : Z).       (* thread t executes its next statement of lock *)

Definition is_outside (p : pc) : bool :=
  match p with Outside _ => true | _ => false end.

Definition do_action (a : action) (s : state) : option state :=
  match a with
  | Init l => Some (init_lock l s)
  | Unlock l => unlock l s
  | Lock t l =>
      if is_outside (pc_of t s) then Some (set_pc t (AtIsNewThread l) s) else None
  | Step t =>
      match lock_step t s with
      | Next s' => Some s'
      | _ => None
      end
  end.

Fixpoint run (acts : list action) (s : state) : option state :=
  match acts with
  | [] => Some s
  | a :: acts' => s' ← do_action a s; run acts' s'
  end.

Inductive reachable : state → Prop :=
| reachable_init : reachable init_state
| reachable_action a s s' :
    reachable s → do_action a s = Some s' → reachable s'.

(** ** Paths in the graph *)

Inductive node :=
| ThreadNode (i : nat)
| ResourceNode (j : nat).

#[global] Instance node_eq_dec : EqDecision node.
Proof. solve_decision. Defined.

(** The outgoing edge of a node: the request edge of a thread, the
    assignment edge of a resource. *)
Definition edge (g : rag) (x : node) : option node :=
  match x with
  | ThreadNode i => th ← threads g !! i; ResourceNode <$> request th
  | ResourceNode j => r ← resources g !! j; ThreadNode <$> assignment r
  end.

(** The node reached after [n] edges. *)
Fixpoint follow (n : nat) (g : rag) (x : node) : option node :=
  match n with
  | O => Some x
  | S n' => y ← edge g x; follow n' g y
  end.

(** A closed alternating path of request and assignment edges. *)
Definition has_cycle (g : rag) : Prop :=
  ∃ x n, 0 < n ∧ follow n g x = Some x.

(** The path from [x] comes back to a node it has already passed. *)
Definition revisits (g : rag) (x : node) : Prop :=
  ∃ m n y, m < n ∧ follow m g x = Some y ∧ follow n g x = Some y.

(** A thread without request edge, or a resource without assignment
    edge. *)
Definition no_edge (g : rag) (x : node) : Prop :=
  match x with
  | ThreadNode i => ∃ th, threads g !! i = Some th ∧ request th = None
  | ResourceNode j => ∃ r, resources g !! j = Some r ∧ assignment r = None
  end.

(** The path from [x] reaches a node without outgoing edge. *)
Definition dead_end (g : rag) (x : node) : Prop :=
  ∃ n y, follow n g x = Some y ∧ no_edge g y.

(** Every edge points to a node of the graph. *)
Definition wf (g : rag) : Prop :=
  (∀ i th j, threads g !! i = Some th → request th = Some j →
             j < length (resources g)) ∧
  (∀ j r i, resources g !! j = Some r → assignment r = Some i →
            i < length (threads g)).

Definition all_clear (g : rag) : Prop :=
  (∀ i th, threads g !! i = Some th → thr_travelled th = false) ∧
  (∀ j r, resources g !! j = Some r → res_travelled r = false).

Definition marked (g : rag) (x : node) : Prop :=
  match x with
  | ThreadNode i => ∃ th, threads g !! i = Some th ∧ thr_travelled th = true
  | ResourceNode j => ∃ r, resources g !! j = Some r ∧ res_travelled r = true
  end.

(** Threads not yet marked: what bounds the depth of the search. *)
Definition unmarked (ts : list thread_t) : nat :=
  length (filter (λ th, thr_travelled th = false) ts).

(** Number of resource nodes registered for lock [l]. *)
Definition nodes_of (l : Z) (g : rag) : nat :=
  length (filter (λ r, res_lock r = l) (resources g)).




(** A thread that has set its request edge and not yet cleared it. *)
Definition requesting (p : pc) : bool :=
  match p with
  | AtCheckForCycles _ | AtSetAssignment _ | AtMutexLock _
  | AtRejectRemoveRequest _ | AtGrantRemoveRequest _ => true
  | _ => false
  end.


(** ** The reader/writer admission scheme (lines 49-52, 318-352)

    The two semaphores and the reader count, with every statement of
    the four functions as one transition of the thread executing it. *)
Module Admission.

Record sems := mk_sems {
  assign_mutex : Z;
  assign_mutexRw : Z;
  assign_readers : Z
}.

(** [sem_wait] returns [None] while the caller has to wait. *)
Definition sem_wait (v : Z) : option Z :=
  if decide (0 < v)%Z then Some (v - 1)%Z else None.

Definition sem_post (v : Z) : Z := (v + 1)%Z.

Inductive loc :=
| Out            (* holds no permission *)
| RW_wait        (* rag_readerWait, line 321 *)
| RW_count       (* lines 322-323 *)
| RW_gate        (* line 324 *)
| RW_post        (* line 326 *)
| Reading        (* read permission held *)
| RS_wait        (* rag_readerSignal, line 333 *)
| RS_count       (* lines 334-335 *)
| RS_gate        (* line 336 *)
| RS_post        (* line 338 *)
| WW_wait        (* rag_writerWait, line 344 *)
| Writing        (* write permission held *)
| WS_post.       (* rag_writerSignal, line 350 *)

Record astate := mk_astate {
  sem : sems;
  locs : gmap Z loc
}.

Definition loc_of (t : Z) (s : astate) : loc := default Out (locs s !! t).

Definition goto (t : Z) (p : loc) (m x : Z) (r : Z) (s : astate) : astate :=
  mk_astate (mk_sems m x r) (<[t := p]> (locs s)).

(** [sem_init(&assign_mutex, 0, 1); sem_init(&assign_mutexRw, 0, 1);
    assign_readers = 0] *)
Definition init : astate := mk_astate (mk_sems 1 1 0) ∅.

Inductive call :=
| ReaderWait (t : Z)
| ReaderSignal (t : Z)
| WriterWait (t : Z)
| WriterSignal (t : Z)
| Go (t : Z).          (* next statement of the function t is in *)

(** The next statement of each of the four functions, for a thread
    that is inside it. *)
Definition rag_readerWait (t : Z) (s : astate) : option astate :=
  let m := assign_mutex (sem s) in
  let x := assign_mutexRw (sem s) in
  let r := assign_readers (sem s) in
  match loc_of t s with
  | RW_wait => m' ← sem_wait m; Some (goto t RW_count m' x r s)
  | RW_count =>
      let r' := (r + 1)%Z in
      Some (goto t (if decide (r' = 1%Z) then RW_gate else RW_post) m x r' s)
  | RW_gate => x' ← sem_wait x; Some (goto t RW_post m x' r s)
  | RW_post => Some (goto t Reading (sem_post m) x r s)
  | _ => None
  end.

Definition rag_readerSignal (t : Z) (s : astate) : option astate :=
  let m := assign_mutex (sem s) in
  let x := assign_mutexRw (sem s) in
  let r := assign_readers (sem s) in
  match loc_of t s with
  | RS_wait => m' ← sem_wait m; Some (goto t RS_count m' x r s)
  | RS_count =>
      let r' := (r - 1)%Z in
      Some (goto t (if decide (r' = 0%Z) then RS_gate else RS_post) m x r' s)
  | RS_gate => Some (goto t RS_post m (sem_post x) r s)
  | RS_post => Some (goto t Out (sem_post m) x r s)
  | _ => None
  end.

Definition rag_writerWait (t : Z) (s : astate) : option astate :=
  let m := assign_mutex (sem s) in
  let x := assign_mutexRw (sem s) in
  let r := assign_readers (sem s) in
  match loc_of t s with
  | WW_wait => m' ← sem_wait m; Some (goto t Writing m' x r s)
  | _ => None
  end.

Definition rag_writerSignal (t : Z) (s : astate) : option astate :=
  let m := assign_mutex (sem s) in
  let x := assign_mutexRw (sem s) in
  let r := assign_readers (sem s) in
  match loc_of t s with
  | WS_post => Some (goto t Out (sem_post m) x r s)
  | _ => None
  end.

Definition step (t : Z) (s : astate) : option astate :=
  match loc_of t s with
  | Out | Reading | Writing => None
  | RW_wait | RW_count | RW_gate | RW_post => rag_readerWait t s
  | RS_wait | RS_count | RS_gate | RS_post => rag_readerSignal t s
  | WW_wait => rag_writerWait t s
  | WS_post => rag_writerSignal t s
  end.

Definition enter (t : Z) (to : loc) (s : astate) : astate :=
  mk_astate (sem s) (<[t := to]> (locs s)).

Definition do_call (c : call) (s : astate) : option astate :=
  match c with
  | ReaderWait t =>
      match loc_of t s with Out => Some (enter t RW_wait s) | _ => None end
  | ReaderSignal t =>
      match loc_of t s with Reading => Some (enter t RS_wait s) | _ => None end
  | WriterWait t =>
      match loc_of t s with Out => Some (enter t WW_wait s) | _ => None end
  | WriterSignal t =>
      match loc_of t s with Writing => Some (enter t WS_post s) | _ => None end
  | Go t => step t s
  end.

Fixpoint run (cs : list call) (s : astate) : option astate :=
  match cs with
  | [] => Some s
  | c :: cs' => s' ← do_call c s; run cs' s'
  end.

End Admission.

(** ** What holds in every reachable state *)

(** Control points of [lock] after the thread node is known to exist. *)
Definition has_node (p : pc) : bool :=
  match p with
  | AtSetRequest _ | AtCheckForCycles _ | AtSetAssignment _ | AtMutexLock _
  | AtRejectRemoveRequest _ | AtGrantRemoveRequest _ => true
  | _ => false
  end.

Record inv (s : state) : Prop := mk_inv {
  inv_wf : wf (graph s);
  inv_clear : all_clear (graph s);
  inv_nodup : NoDup (tid <$> threads (graph s));
  inv_unseen : ∀ t l,
    pc_of t s = AtAddThread l → rag_getThread t (graph s) = None;
  inv_seen : ∀ t,
    has_node (pc_of t s) = true → is_Some (rag_getThread t (graph s));
  inv_request : ∀ i th,
    threads (graph s) !! i = Some th → is_Some (request th) →
    requesting (pc_of (tid th) s) = true;
  inv_mutex : ∀ j r,
    resources (graph s) !! j = Some r → is_Some (mutexes s !! res_lock r);
  inv_waiting : ∀ t l,
    pc_of t s = AtMutexLock l → is_Some (rag_getResource l (graph s))
}.

(** A thread that is running its cycle check or is being rejected, or
    that has set its assignment edge and not yet cleared its request
    edge. *)
Definition in_cycle_phase (p : pc) : bool :=
  match p with
  | AtCheckForCycles _ | AtRejectRemoveRequest _
  | AtMutexLock _ | AtGrantRemoveRequest _ => true
  | _ => false
  end.

(** Every cycle of the graph passes through the node of such a thread. *)
Definition cycle_guard (s : state) : Prop :=
  ∀ x n, 0 < n → follow n (graph s) x = Some x →
    ∃ m i th, m < n ∧ follow m (graph s) x = Some (ThreadNode i) ∧
              threads (graph s) !! i = Some th ∧
              in_cycle_phase (pc_of (tid th) s) = true.

(** ** Schedules used as examples *)

(** Thread 1 initialises lock 100 and acquires it. *)
Definition sched_granted : list action :=
  [Init 100; Lock 1 100; Step 1; Step 1; Step 1; Step 1; Step 1; Step 1; Step 1].

(** Then thread 2 asks for the same lock and reaches line 107. *)
Definition sched_blocked : list action :=
  sched_granted ++ [Lock 2 100; Step 2; Step 2; Step 2; Step 2; Step 2].

(** Thread 1 asks again for the lock it holds, up to the cycle check. *)
Definition sched_relock : list action :=
  sched_granted ++ [Lock 1 100; Step 1; Step 1].

Definition final (acts : list action) : state :=
  default init_state (run acts init_state).

(** Thread 1 takes read permission, then thread 2 asks for write
    permission. *)
Definition sched_reader_writer : list Admission.call :=
  [Admission.ReaderWait 1; Admission.Go 1; Admission.Go 1; Admission.Go 1;
   Admission.Go 1; Admission.WriterWait 2; Admission.Go 2].


(** Thread 1 asks again for the lock it holds and is rejected. *)
Definition sched_rejected : list action :=
  sched_relock ++ [Step 1; Step 1].

(** Thread 1 has entered [lock(100)] and set its request edge. *)
Definition sched_checking : list action :=
  [Init 100; Lock 1 100; Step 1; Step 1; Step 1].

(** Thread 1 requests the lock it holds. *)
Definition rag_self_loop : rag :=
  mk_rag [mk_thread (Some 0) 1 false] [mk_resource (Some 0) 100 false].

(** Thread 1 requests lock 100, held by thread 2, which requests
    nothing. *)
Definition rag_chain : rag :=
  mk_rag [mk_thread (Some 0) 1 false; mk_thread None 2 false]
         [mk_resource (Some 1) 100 false].

(** Thread [t] acquires a free lock [l], from the call to the return. *)
Definition acquire (t l : Z) : list action :=
  [Lock t l; Step t; Step t; Step t; Step t; Step t; Step t; Step t].

(** Thread 1 holds lock 100 and thread 2 holds lock 200; thread 1 asks
    for 200 and reaches line 107, then thread 2 asks for 100 and runs
    its cycle check. *)
Definition sched_crossed : list action :=
  [Init 100; Init 200] ++ acquire 1 100 ++ acquire 2 200 ++
  [Lock 1 200; Step 1; Step 1; Step 1; Step 1] ++
  [Lock 2 100; Step 2; Step 2; Step 2].

(** Lock 100 is initialised and nothing else has happened. *)
Definition sched_init : list action := [Init 100].

(** The node of lock 100 in that state. *)
Definition fresh_resource : resource_t := mk_resource None 100 false.

(** A place inside the four admission functions at which the thread
    has passed [sem_wait(&assign_mutex)] and not yet posted it. *)
Definition holds_mutex (p : Admission.loc) : bool :=
  match p with
  | Admission.RW_count | Admission.RW_gate | Admission.RW_post
  | Admission.RS_count | Admission.RS_gate | Admission.RS_post
  | Admission.Writing | Admission.WS_post => true
  | _ => false
  end.

(** [assign_mutex] is a binary semaphore held by at most one thread. *)
Definition mutex_inv (s : Admission.astate) : Prop :=
  (Admission.assign_mutex (Admission.sem s) = 0%Z ∨
   Admission.assign_mutex (Admission.sem s) = 1%Z) ∧
  (∀ t, holds_mutex (Admission.loc_of t s) = true →
        Admission.assign_mutex (Admission.sem s) = 0%Z) ∧
  (∀ t u, holds_mutex (Admission.loc_of t s) = true →
          holds_mutex (Admission.loc_of u s) = true → t = u).

Definition adm_final (cs : list Admission.call) : Admission.astate :=
  default Admission.init (Admission.run cs Admission.init).

(** * Properties *)

(** ** Lists updated in place *)

Section alter_facts.
Context {A : Type} (f : A → A).

Lemma lookup_alter_Some (l : list A) i k x :
  alter f i l !! k = Some x →
  ∃ y, l !! k = Some y ∧ ((k ≠ i ∧ x = y) ∨ (k = i ∧ x = f y)).
Proof.
  destruct (decide (i = k)) as [->|Hne].
  - rewrite list_lookup_alter_eq. intros Hx.
    destruct (l !! k) as [y|]; simplify_eq/=. eauto.
  - rewrite list_lookup_alter_ne by done. eauto.
Qed.

Lemma lookup_alter_keeps (P : A → Prop) (l : list A) i :
  (∀ y, P y → P (f y)) →
  (∀ k y, l !! k = Some y → P y) →
  ∀ k x, alter f i l !! k = Some x → P x.
Proof.
  intros Hf Hl k x Hx.
  apply lookup_alter_Some in Hx as (y & Hy & [[_ ->]|[_ ->]]); eauto.
Qed.
Lemma fmap_alter_same {B} (g : A → B) (l : list A) i :
  (∀ x, g (f x) = g x) → g <$> alter f i l = g <$> l.
Proof.
  intros Hg. revert i.
  induction l as [|a l IH]; intros [|i]; simpl; [done..| |].
  - by rewrite Hg.
  - f_equal. apply IH.
Qed.
End alter_facts.

(** ** Lookup by identity *)

Lemma scan_threads_Some t ts i :
  scan_threads t ts = Some i → ∃ th, ts !! i = Some th ∧ tid th = t.
Proof.
  revert i. induction ts as [|curr next IH]; intros i; simpl; [done|].
  destruct (decide (tid curr = t)).
  - intros [= <-]. eauto.
  - destruct (scan_threads t next) as [k|]; simpl; [|done].
    intros [= <-]. destruct (IH k eq_refl) as (th & ? & ?). eauto.
Qed.

Lemma scan_resources_Some l rs j :
  scan_resources l rs = Some j → ∃ r, rs !! j = Some r ∧ res_lock r = l.
Proof.
  revert j. induction rs as [|curr next IH]; intros j; simpl; [done|].
  destruct (decide (res_lock curr = l)).
  - intros [= <-]. eauto.
  - destruct (scan_resources l next) as [k|]; simpl; [|done].
    intros [= <-]. destruct (IH k eq_refl) as (r & ? & ?). eauto.
Qed.

Lemma scan_threads_None t ts :
  scan_threads t ts = None ↔ ∀ i th, ts !! i = Some th → tid th ≠ t.
Proof.
  induction ts as [|curr next IH]; simpl.
  - split; [intros _ i th; by rewrite lookup_nil | done].
  - destruct (decide (tid curr = t)) as [Heq|Hne].
    + split; [done|]. intros H. by destruct (H 0 curr eq_refl).
    + destruct (scan_threads t next) as [k|]; simpl.
      * split; [done|]. intros H.
        assert (Some k = None) as Hn by (apply IH; intros i th Hi; apply (H (S i) th Hi)).
        done.
      * split; [|done]. intros _ [|i] th; simpl.
        -- by intros [= <-].
        -- by apply IH.
Qed.

Lemma scan_resources_None l rs :
  scan_resources l rs = None ↔ ∀ j r, rs !! j = Some r → res_lock r ≠ l.
Proof.
  induction rs as [|curr next IH]; simpl.
  - split; [intros _ j r; by rewrite lookup_nil | done].
  - destruct (decide (res_lock curr = l)) as [Heq|Hne].
    + split; [done|]. intros H. by destruct (H 0 curr eq_refl).
    + destruct (scan_resources l next) as [k|]; simpl.
      * split; [done|]. intros H.
        assert (Some k = None) as Hn by (apply IH; intros j r Hj; apply (H (S j) r Hj)).
        done.
      * split; [|done]. intros _ [|j] r; simpl.
        -- by intros [= <-].
        -- by apply IH.
Qed.

Lemma scan_isNew_spec t ts : scan_isNew t ts = true ↔ scan_threads t ts = None.
Proof.
  induction ts as [|curr next IH]; simpl; [done|].
  destruct (decide (tid curr = t)); [done|].
  rewrite IH. destruct (scan_threads t next); simpl; done.
Qed.

(** A lookup depends on the identities only. *)
Lemma scan_threads_ext t ts ts' :
  tid <$> ts = tid <$> ts' → scan_threads t ts = scan_threads t ts'.
Proof.
  revert ts'. induction ts as [|a ts IH]; intros [|b ts']; simpl; try done.
  intros [= Hab Hts]. rewrite Hab, (IH _ Hts). done.
Qed.

Lemma scan_resources_ext l rs rs' :
  res_lock <$> rs = res_lock <$> rs' → scan_resources l rs = scan_resources l rs'.
Proof.
  revert rs'. induction rs as [|a rs IH]; intros [|b rs']; simpl; try done.
  intros [= Hab Hrs]. rewrite Hab, (IH _ Hrs). done.
Qed.

Lemma tids_alter (f : thread_t → thread_t) (i : nat) (ts : list thread_t) :
  (∀ th, tid (f th) = tid th) → tid <$> alter f i ts = tid <$> ts.
Proof.
  intros Hf. by apply fmap_alter_same.
Qed.

Lemma locks_alter (f : resource_t → resource_t) (j : nat) (rs : list resource_t) :
  (∀ r, res_lock (f r) = res_lock r) → res_lock <$> alter f j rs = res_lock <$> rs.
Proof.
  intros Hf. by apply fmap_alter_same.
Qed.

Lemma scan_threads_app t ts ts' :
  scan_threads t (ts ++ ts') =
  match scan_threads t ts with
  | Some i => Some i
  | None => (λ k, length ts + k) <$> scan_threads t ts'
  end.
Proof.
  induction ts as [|a ts IH]; simpl.
  - by destruct (scan_threads t ts').
  - destruct (decide (tid a = t)); [done|].
    rewrite IH. destruct (scan_threads t ts); simpl; [done|].
    by destruct (scan_threads t ts').
Qed.

Lemma scan_resources_app l rs rs' :
  scan_resources l (rs ++ rs') =
  match scan_resources l rs with
  | Some j => Some j
  | None => (λ k, length rs + k) <$> scan_resources l rs'
  end.
Proof.
  induction rs as [|a rs IH]; simpl.
  - by destruct (scan_resources l rs').
  - destruct (decide (res_lock a = l)); [done|].
    rewrite IH. destruct (scan_resources l rs); simpl; [done|].
    by destruct (scan_resources l rs').
Qed.

(** ** Marking nodes does not move edges *)

Lemma edge_mark_thread i g x : edge (mark_thread i g) x = edge g x.
Proof.
  destruct x as [k|k]; simpl; [|done].
  destruct (decide (i = k)) as [->|Hne].
  - rewrite list_lookup_alter_eq. by destruct (threads g !! k).
  - by rewrite list_lookup_alter_ne.
Qed.

Lemma edge_mark_resource j g x : edge (mark_resource j g) x = edge g x.
Proof.
  destruct x as [k|k]; simpl; [done|].
  destruct (decide (j = k)) as [->|Hne].
  - rewrite list_lookup_alter_eq. by destruct (resources g !! k).
  - by rewrite list_lookup_alter_ne.
Qed.


Lemma follow_ext g g' :
  (∀ x, edge g x = edge g' x) → ∀ n x, follow n g x = follow n g' x.
Proof.
  intros He n. induction n as [|n IH]; intros x; simpl; [done|].
  rewrite He. destruct (edge g' x); simpl; [apply IH | done].
Qed.

Lemma follow_plus m n g x : follow (m + n) g x = follow m g x ≫= follow n g.
Proof.
  revert x. induction m as [|m IH]; intros x; simpl; [done|].
  destruct (edge g x); simpl; [apply IH | done].
Qed.

Lemma follow_1 g x : follow 1 g x = edge g x.
Proof. simpl. by destruct (edge g x). Qed.

Lemma follow_SS n g x :
  follow (S (S n)) g x = edge g x ≫= λ y, edge g y ≫= follow n g.
Proof. done. Qed.

Lemma follow_S n g x : follow (S n) g x = follow n g x ≫= edge g.
Proof.
  replace (S n) with (n + 1) by lia. rewrite follow_plus.
  destruct (follow n g x) as [y|]; simpl; [|done]. by destruct (edge g y).
Qed.

Lemma marked_mark_thread i g y :
  marked (mark_thread i g) y → marked g y ∨ y = ThreadNode i.
Proof.
  destruct y as [k|k]; simpl; [|by left].
  intros (th & Hth & Htr).
  apply lookup_alter_Some in Hth as (th0 & Hth0 & [[_ ->]|[-> ->]]).
  - left. eauto.
  - by right.
Qed.

Lemma marked_mark_resource j g y :
  marked (mark_resource j g) y → marked g y ∨ y = ResourceNode j.
Proof.
  destruct y as [k|k]; simpl; [by left|].
  intros (r & Hr & Htr).
  apply lookup_alter_Some in Hr as (r0 & Hr0 & [[_ ->]|[-> ->]]).
  - left. eauto.
  - by right.
Qed.

Lemma no_edge_edge g y : no_edge g y → edge g y = None.
Proof.
  destruct y as [k|k]; simpl; intros (n & Hn & He); rewrite Hn; simpl;
    by rewrite He.
Qed.

Lemma no_edge_mark_thread i g y : no_edge (mark_thread i g) y → no_edge g y.
Proof.
  destruct y as [k|k]; simpl; [|done].
  intros (th & Hth & Hreq).
  apply lookup_alter_Some in Hth as (th0 & Hth0 & [[_ ->]|[_ ->]]); eauto.
Qed.

Lemma no_edge_mark_resource j g y : no_edge (mark_resource j g) y → no_edge g y.
Proof.
  destruct y as [k|k]; simpl; [done|].
  intros (r & Hr & Hass).
  apply lookup_alter_Some in Hr as (r0 & Hr0 & [[_ ->]|[_ ->]]); eauto.
Qed.

Lemma all_clear_unmarked g y : all_clear g → ¬ marked g y.
Proof.
  intros [Ht Hr]. destruct y as [k|k]; simpl.
  - intros (th & Hth & Htr). by rewrite (Ht _ _ Hth) in Htr.
  - intros (r & Hr' & Htr). by rewrite (Hr _ _ Hr') in Htr.
Qed.

(** ** The search finds exactly the loops of the path *)

Lemma dfs_sound fuel : ∀ g i b g',
  rag_depthFirstSearch fuel (Some i) g = Some (b, g') →
  if b then
    ∃ n y, follow n g (ThreadNode i) = Some y ∧
           (marked g y ∨ ∃ m, m < n ∧ follow m g (ThreadNode i) = Some y)
  else dead_end g (ThreadNode i).
Proof.
  induction fuel as [|fuel IH]; intros g i b g' H; simpl in H; [done|].
  destruct (threads g !! i) as [th|] eqn:Hth; simpl in H; [|done].
  destruct (thr_travelled th) eqn:Htr.
  { simplify_eq. exists 0, (ThreadNode i). split; [done|]. left. simpl. eauto. }
  destruct (request th) as [j|] eqn:Hreq; cycle 1.
  { simplify_eq. exists 0, (ThreadNode i). simpl. eauto. }
  assert (edge g (ThreadNode i) = Some (ResourceNode j)) as Hei.
  { simpl. rewrite Hth. simpl. by rewrite Hreq. }
  destruct (resources g !! j) as [r|] eqn:Hr; simpl in H; [|done].
  destruct (res_travelled r) eqn:Hrt.
  { simplify_eq. exists 1, (ResourceNode j). split.
    - by rewrite follow_1.
    - left. simpl. eauto. }
  assert (edge g (ResourceNode j) = ThreadNode <$> assignment r) as Hej.
  { simpl. by rewrite Hr. }
  set (g2 := mark_resource j (mark_thread i g)) in *.
  assert (∀ x, edge g2 x = edge g x) as He.
  { intros x. unfold g2. by rewrite edge_mark_resource, edge_mark_thread. }
  assert (∀ n, follow (S (S n)) g (ThreadNode i) =
                 (ThreadNode <$> assignment r) ≫= follow n g) as Hstep.
  { intros n. by rewrite follow_SS, Hei, <-Hej. }
  destruct (assignment r) as [k|] eqn:Hass; cycle 1.
  { destruct fuel; simpl in H; [done|]. simplify_eq.
    exists 1, (ResourceNode j). split; [by rewrite follow_1 | simpl; eauto]. }
  apply IH in H. destruct b.
  - destruct H as (n & y & Hn & Hy).
    rewrite (follow_ext g2 g He) in Hn.
    exists (S (S n)), y. split; [by rewrite Hstep|].
    destruct Hy as [Hm|(m & Hlt & Hm)].
    + apply marked_mark_resource in Hm as [Hm| ->].
      * apply marked_mark_thread in Hm as [Hm| ->]; [by left|].
        right. exists 0. split; [lia|done].
      * right. exists 1. split; [lia|]. by rewrite follow_1.
    + right. exists (S (S m)). split; [lia|].
      rewrite (follow_ext g2 g He) in Hm. by rewrite Hstep.
  - destruct H as (n & y & Hn & Hy).
    rewrite (follow_ext g2 g He) in Hn.
    apply no_edge_mark_resource, no_edge_mark_thread in Hy.
    exists (S (S n)), y. split; [by rewrite Hstep | done].
Qed.

(** A path that loops never ends. *)
Lemma follow_dead_end_after n g x y k :
  follow n g x = Some y → edge g y = None → follow (n + S k) g x = None.
Proof.
  intros Hn He. rewrite follow_plus, Hn. simpl. by rewrite He.
Qed.

Lemma revisits_periodic g x m d y :
  follow m g x = Some y → follow (m + d) g x = Some y →
  ∀ k, follow (m + k * d) g x = Some y.
Proof.
  intros Hm Hd k. induction k as [|k IH]; simpl.
  - by rewrite Nat.add_0_r.
  - replace (m + (d + k * d)) with ((m + d) + k * d) by lia.
    rewrite follow_plus, Hd. simpl.
    rewrite follow_plus, Hm in IH. done.
Qed.

Lemma revisits_not_dead_end g x : revisits g x → dead_end g x → False.
Proof.
  intros (m & n & y & Hlt & Hm & Hn) (e & z & He & Hz).
  apply no_edge_edge in Hz.
  pose proof (revisits_periodic g x m (n - m) y Hm) as Hp.
  replace (m + (n - m)) with n in Hp by lia.
  specialize (Hp Hn (S e)).
  assert (∃ k, m + S e * (n - m) = e + S k) as [k Hk].
  { exists (m + S e * (n - m) - e - 1). nia. }
  rewrite Hk, (follow_dead_end_after e g x z k He Hz) in Hp. done.
Qed.

(** ** The search terminates *)

Lemma wf_mark_thread i g : wf g → wf (mark_thread i g).
Proof.
  intros [Ht Hr]. split; simpl.
  - intros k th j Hk Hreq.
    apply lookup_alter_Some in Hk as (th0 & Hk & [[_ ->]|[_ ->]]);
      by apply (Ht k th0 j).
  - intros j r k Hj Hass. rewrite length_alter. by apply (Hr j r k).
Qed.

Lemma wf_mark_resource j g : wf g → wf (mark_resource j g).
Proof.
  intros [Ht Hr]. split; simpl.
  - intros k th j' Hk Hreq. rewrite length_alter. by apply (Ht k th j').
  - intros k r i Hk Hass.
    apply lookup_alter_Some in Hk as (r0 & Hk & [[_ ->]|[_ ->]]);
      by apply (Hr k r0 i).
Qed.

Lemma unmarked_cons a ts :
  unmarked (a :: ts) = (if thr_travelled a then 0 else 1) + unmarked ts.
Proof.
  unfold unmarked. rewrite filter_cons.
  destruct (decide (thr_travelled a = false)) as [->|Hne]; [done|].
  by destruct (thr_travelled a).
Qed.

Lemma unmarked_mark ts i th :
  ts !! i = Some th → thr_travelled th = false →
  S (unmarked (alter (set_thr_travelled true) i ts)) = unmarked ts.
Proof.
  revert i. induction ts as [|a ts IH]; intros [|i] Hi Htr; simplify_eq/=.
  - rewrite !unmarked_cons, Htr. done.
  - rewrite !unmarked_cons, <-(IH i Hi Htr). lia.
Qed.

Lemma dfs_total fuel : ∀ g c,
  wf g → (∀ i, c = Some i → i < length (threads g)) →
  unmarked (threads g) < fuel →
  is_Some (rag_depthFirstSearch fuel c g).
Proof.
  induction fuel as [|fuel IH]; intros g c Hwf Hc Hfuel; [lia|].
  simpl. destruct c as [i|]; [|done].
  destruct (lookup_lt_is_Some_2 (threads g) i (Hc i eq_refl)) as [th Hth].
  rewrite Hth. simpl. destruct (thr_travelled th) eqn:Htr; [done|].
  destruct (request th) as [j|] eqn:Hreq; [|done].
  pose proof Hwf as [Ht Hr].
  destruct (lookup_lt_is_Some_2 (resources g) j (Ht i th j Hth Hreq)) as [r Hrj].
  rewrite Hrj. simpl. destruct (res_travelled r); [done|].
  apply IH.
  - by apply wf_mark_resource, wf_mark_thread.
  - intros k Hk. simpl. rewrite length_alter. by apply (Hr j r k).
  - simpl. pose proof (unmarked_mark _ _ _ Hth Htr). lia.
Qed.

Lemma getThread_lt t g i : rag_getThread t g = Some i → i < length (threads g).
Proof.
  intros H. apply scan_threads_Some in H as (th & Hth & _).
  by eapply lookup_lt_Some.
Qed.

Lemma getResource_lt l g j :
  rag_getResource l g = Some j → j < length (resources g).
Proof.
  intros H. apply scan_resources_Some in H as (r & Hr & _).
  by eapply lookup_lt_Some.
Qed.

Lemma checkForCycles_total t g : wf g → is_Some (rag_checkForCycles t g).
Proof.
  intros Hwf. unfold rag_checkForCycles.
  destruct (dfs_total (S (length (threads g))) g (rag_getThread t g)) as [[b g1] H].
  - done.
  - intros i. apply getThread_lt.
  - unfold unmarked. pose proof (length_filter (λ th, thr_travelled th = false) (threads g)).
    lia.
  - rewrite H. done.
Qed.


(** ** C6 *)



Lemma wf_chain : wf rag_chain.
Proof. split; intros [|[|[|?]]] ? ? ? ?; simplify_eq/=; lia. Qed.


(** ** C2 *)




(** The two answers of the check on small graphs. *)
Example check_self_loop :
  rag_checkForCycles 1 rag_self_loop = Some (true, rag_self_loop).
Proof. reflexivity. Qed.

Example check_chain : rag_checkForCycles 1 rag_chain = Some (false, rag_chain).
Proof. reflexivity. Qed.

(** ** Effect of the graph operations on lookups *)

Lemma getThread_alter (f : thread_t → thread_t) u i g :
  (∀ th, tid (f th) = tid th) →
  rag_getThread u (with_threads (alter f i (threads g)) g) = rag_getThread u g.
Proof.
  intros Hf. unfold rag_getThread. simpl.
  apply scan_threads_ext. by apply tids_alter.
Qed.

Lemma getResource_alter (f : resource_t → resource_t) l j g :
  (∀ r, res_lock (f r) = res_lock r) →
  rag_getResource l (with_resources (alter f j (resources g)) g) =
  rag_getResource l g.
Proof.
  intros Hf. unfold rag_getResource. simpl.
  apply scan_resources_ext. by apply locks_alter.
Qed.

Lemma getThread_addThread u t g :
  rag_getThread u (rag_addThread t g) =
  match rag_getThread u g with
  | Some i => Some i
  | None => if decide (t = u) then Some (length (threads g)) else None
  end.
Proof.
  unfold rag_getThread, rag_addThread. simpl. rewrite scan_threads_app.
  destruct (scan_threads u (threads g)); [done|]. simpl.
  destruct (decide (t = u)); simpl; [|done]. f_equal. lia.
Qed.

Lemma getResource_addResource l l' g :
  rag_getResource l (rag_addResource l' g) =
  match rag_getResource l g with
  | Some j => Some j
  | None => if decide (l' = l) then Some (length (resources g)) else None
  end.
Proof.
  unfold rag_getResource, rag_addResource. simpl. rewrite scan_resources_app.
  destruct (scan_resources l (resources g)); [done|]. simpl.
  destruct (decide (l' = l)); simpl; [|done]. f_equal. lia.
Qed.

Lemma getThread_unique t g i k th :
  NoDup (tid <$> threads g) → rag_getThread t g = Some i →
  threads g !! k = Some th → tid th = t → k = i.
Proof.
  intros Hnd Hi Hk Ht.
  apply scan_threads_Some in Hi as (th' & Hi & Ht').
  eapply NoDup_lookup; [done| |].
  - rewrite list_lookup_fmap, Hk. simpl. by rewrite Ht.
  - rewrite list_lookup_fmap, Hi. simpl. by rewrite Ht'.
Qed.

(** ** Clearing the markers undoes the search *)

Lemma clear_mark_thread i g : clear_travelled (mark_thread i g) = clear_travelled g.
Proof.
  unfold clear_travelled. simpl. f_equal. by apply fmap_alter_same.
Qed.

Lemma clear_mark_resource j g :
  clear_travelled (mark_resource j g) = clear_travelled g.
Proof.
  unfold clear_travelled. simpl. f_equal. by apply fmap_alter_same.
Qed.

Lemma dfs_clear fuel : ∀ c g b g',
  rag_depthFirstSearch fuel c g = Some (b, g') →
  clear_travelled g' = clear_travelled g.
Proof.
  induction fuel as [|fuel IH]; intros c g b g' H; simpl in H; [done|].
  destruct c as [i|]; [|by simplify_eq].
  destruct (threads g !! i) as [th|]; simpl in H; [|done].
  destruct (thr_travelled th); [by simplify_eq|].
  destruct (request th) as [j|]; [|simplify_eq; apply clear_mark_thread].
  destruct (resources g !! j) as [r|]; simpl in H; [|done].
  destruct (res_travelled r); [simplify_eq; apply clear_mark_thread|].
  apply IH in H. by rewrite H, clear_mark_resource, clear_mark_thread.
Qed.

Lemma all_clear_fixed g : all_clear g → clear_travelled g = g.
Proof.
  intros [Ht Hr]. destruct g as [ts rs]. unfold clear_travelled. simpl in *.
  f_equal; apply list_eq; intros k; rewrite list_lookup_fmap.
  - destruct (ts !! k) as [th|] eqn:Hk; simpl; [|done].
    specialize (Ht k th Hk). destruct th; simpl in *. by subst.
  - destruct (rs !! k) as [r|] eqn:Hk; simpl; [|done].
    specialize (Hr k r Hk). destruct r; simpl in *. by subst.
Qed.

(** On a graph with clear markers the check changes nothing. *)
Lemma checkForCycles_graph t g b g' :
  all_clear g → rag_checkForCycles t g = Some (b, g') → g' = g.
Proof.
  intros Hclear H. unfold rag_checkForCycles in H.
  destruct (rag_depthFirstSearch _ _ _) as [[b1 g1]|] eqn:Hdfs; [|done].
  simpl in H. simplify_eq.
  apply dfs_clear in Hdfs. by rewrite Hdfs, all_clear_fixed.
Qed.

(** ** Control points *)

Lemma pc_of_set_pc u t p s :
  pc_of u (set_pc t p s) = if decide (t = u) then p else pc_of u s.
Proof.
  unfold pc_of, set_pc. simpl. destruct (decide (t = u)) as [->|Hne].
  - by rewrite lookup_insert_eq.
  - by rewrite lookup_insert_ne.
Qed.

(** ** Edges stay inside the graph, markers stay clear *)

Lemma wf_addThread t g : wf g → wf (rag_addThread t g).
Proof.
  intros [Ht Hr]. split; simpl.
  - intros i th j Hi Hreq. apply lookup_app_Some in Hi as [Hi|[_ Hi]].
    + by apply (Ht i th j).
    + apply list_lookup_singleton_Some in Hi as [_ <-]. done.
  - intros j r i Hj Hass. rewrite length_app. specialize (Hr j r i Hj Hass). lia.
Qed.

Lemma wf_addResource l g : wf g → wf (rag_addResource l g).
Proof.
  intros [Ht Hr]. split; simpl.
  - intros i th j Hi Hreq. rewrite length_app. specialize (Ht i th j Hi Hreq). lia.
  - intros j r i Hj Hass. apply lookup_app_Some in Hj as [Hj|[_ Hj]].
    + by apply (Hr j r i).
    + apply list_lookup_singleton_Some in Hj as [_ <-]. done.
Qed.

Lemma wf_alter_request o i g :
  wf g → (∀ j, o = Some j → j < length (resources g)) →
  wf (with_threads (alter (set_request o) i (threads g)) g).
Proof.
  intros [Ht Hr] Ho. split; simpl.
  - intros k th j Hk Hreq.
    apply lookup_alter_Some in Hk as (th0 & Hk & [[_ ->]|[_ ->]]).
    + by apply (Ht k th0 j).
    + by apply Ho.
  - intros j r k Hj Hass. rewrite length_alter. by apply (Hr j r k).
Qed.

Lemma wf_alter_assignment o j g :
  wf g → (∀ i, o = Some i → i < length (threads g)) →
  wf (with_resources (alter (set_assignment o) j (resources g)) g).
Proof.
  intros [Ht Hr] Ho. split; simpl.
  - intros k th j' Hk Hreq. rewrite length_alter. by apply (Ht k th j').
  - intros k r i Hk Hass.
    apply lookup_alter_Some in Hk as (r0 & Hk & [[_ ->]|[_ ->]]).
    + by apply (Hr k r0 i).
    + by apply Ho.
Qed.

Lemma wf_setRequest t l g g' : wf g → rag_setRequest t l g = Some g' → wf g'.
Proof.
  intros Hwf H. unfold rag_setRequest in H.
  destruct (rag_getThread t g) as [i|]; simplify_eq/=.
  apply wf_alter_request; [done|]. intros j. apply getResource_lt.
Qed.

Lemma wf_setAssignment t l g g' :
  wf g → rag_setAssignment t l g = Some g' → wf g'.
Proof.
  intros Hwf H. unfold rag_setAssignment in H.
  destruct (rag_getResource l g) as [j|]; simplify_eq/=.
  apply wf_alter_assignment; [done|]. intros i. apply getThread_lt.
Qed.

Lemma wf_removeRequest t g g' : wf g → rag_removeRequest t g = Some g' → wf g'.
Proof.
  intros Hwf H. unfold rag_removeRequest in H.
  destruct (rag_getThread t g) as [i|]; simplify_eq/=.
  by apply wf_alter_request.
Qed.

Lemma wf_removeAssignment l g g' :
  wf g → rag_removeAssignment l g = Some g' → wf g'.
Proof.
  intros Hwf H. unfold rag_removeAssignment in H.
  destruct (rag_getResource l g) as [j|]; simplify_eq/=.
  by apply wf_alter_assignment.
Qed.

Lemma all_clear_alter_threads (f : thread_t → thread_t) i g :
  (∀ th, thr_travelled (f th) = thr_travelled th) →
  all_clear g → all_clear (with_threads (alter f i (threads g)) g).
Proof.
  intros Hf [Ht Hr]. split; simpl; [|done].
  apply (lookup_alter_keeps f (λ th, thr_travelled th = false)); [|done].
  intros th. by rewrite Hf.
Qed.

Lemma all_clear_alter_resources (f : resource_t → resource_t) j g :
  (∀ r, res_travelled (f r) = res_travelled r) →
  all_clear g → all_clear (with_resources (alter f j (resources g)) g).
Proof.
  intros Hf [Ht Hr]. split; simpl; [done|].
  apply (lookup_alter_keeps f (λ r, res_travelled r = false)); [|done].
  intros r. by rewrite Hf.
Qed.

Lemma all_clear_addThread t g : all_clear g → all_clear (rag_addThread t g).
Proof.
  intros [Ht Hr]. split; simpl; [|done].
  intros i th Hi. apply lookup_app_Some in Hi as [Hi|[_ Hi]]; [by eapply Ht|].
  by apply list_lookup_singleton_Some in Hi as [_ <-].
Qed.

Lemma all_clear_addResource l g : all_clear g → all_clear (rag_addResource l g).
Proof.
  intros [Ht Hr]. split; simpl; [done|].
  intros j r Hj. apply lookup_app_Some in Hj as [Hj|[_ Hj]]; [by eapply Hr|].
  by apply list_lookup_singleton_Some in Hj as [_ <-].
Qed.

(** ** The invariant of the protocol *)

Lemma pc_of_with_graph u g s : pc_of u (with_graph g s) = pc_of u s.
Proof. done. Qed.

Lemma pc_of_with_mutex u l b s : pc_of u (with_mutex l b s) = pc_of u s.
Proof. done. Qed.

Lemma inv_init : inv init_state.
Proof.
  split; simpl; try done. constructor.
Qed.

(** A transition that moves only the control point of [t]. *)
Lemma inv_set_pc t p s :
  inv s →
  (∀ l, p = AtAddThread l → rag_getThread t (graph s) = None) →
  (has_node p = true → is_Some (rag_getThread t (graph s))) →
  (requesting (pc_of t s) = true → requesting p = true) →
  (∀ l, p = AtMutexLock l → is_Some (rag_getResource l (graph s))) →
  inv (set_pc t p s).
Proof.
  intros [] Hunseen Hseen Hreq Hwait. split; simpl; try done.
  - intros u l. rewrite pc_of_set_pc. destruct (decide (t = u)) as [<-|]; eauto.
  - intros u. rewrite pc_of_set_pc. destruct (decide (t = u)) as [<-|]; eauto.
  - intros i th Hi Hr. rewrite pc_of_set_pc.
    destruct (decide (t = tid th)) as [->|]; eauto.
  - intros u l. rewrite pc_of_set_pc. destruct (decide (t = u)) as [<-|]; eauto.
Qed.

Lemma inv_addThread t l s :
  inv s → pc_of t s = AtAddThread l →
  inv (set_pc t (AtSetRequest l) (with_graph (rag_addThread t (graph s)) s)).
Proof.
  intros [] Hpc. pose proof (inv_unseen0 t l Hpc) as Hnone.
  split; simpl.
  - by apply wf_addThread.
  - by apply all_clear_addThread.
  - rewrite fmap_app. apply NoDup_app. split; [done|]. split; [|apply NoDup_singleton].
    intros x Hx Hx'. apply list_elem_of_singleton in Hx'. subst x.
    apply list_elem_of_fmap in Hx as (th & Ht & Hth).
    apply list_elem_of_lookup in Hth as [i Hi].
    eapply scan_threads_None in Hnone; [|done]. done.
  - intros u l'. rewrite pc_of_set_pc.
    destruct (decide (t = u)) as [<-|Hne]; [done|].
    rewrite pc_of_with_graph. intros Hu.
    rewrite getThread_addThread, (inv_unseen0 u l' Hu).
    by destruct (decide (t = u)).
  - intros u. rewrite pc_of_set_pc, getThread_addThread.
    destruct (decide (t = u)) as [<-|Hne].
    + by destruct (rag_getThread t (graph s)).
    + rewrite pc_of_with_graph. intros Hu.
      destruct (inv_seen0 u Hu) as [i ->]. done.
  - intros i th Hi Hr. rewrite pc_of_set_pc.
    apply lookup_app_Some in Hi as [Hi|[_ Hi]].
    + destruct (decide (t = tid th)) as [Heq|]; [|by eapply inv_request0].
      eapply scan_threads_None in Hnone; [|done]. done.
    + apply list_lookup_singleton_Some in Hi as [_ <-]. by destruct Hr.
  - done.
  - intros u l'. rewrite pc_of_set_pc.
    destruct (decide (t = u)) as [<-|Hne]; [done|]. apply inv_waiting0.
Qed.

(** A transition of [t] that rewrites the request edge of its node. *)
Lemma inv_alter_request t p o s i :
  inv s → rag_getThread t (graph s) = Some i →
  (∀ j, o = Some j → j < length (resources (graph s))) →
  (is_Some o → requesting p = true) →
  (∀ l, p ≠ AtAddThread l) → (∀ l, p ≠ AtMutexLock l) →
  inv (set_pc t p
         (with_graph (with_threads (alter (set_request o) i (threads (graph s)))
                        (graph s)) s)).
Proof.
  intros [] Hi Ho Hreq Hp1 Hp2. split; simpl.
  - by apply wf_alter_request.
  - by apply all_clear_alter_threads.
  - by rewrite tids_alter.
  - intros u l. rewrite pc_of_set_pc.
    destruct (decide (t = u)) as [<-|Hne]; [intros ?; by destruct (Hp1 l)|].
    rewrite pc_of_with_graph. rewrite getThread_alter by done. apply inv_unseen0.
  - intros u. rewrite getThread_alter by done. rewrite pc_of_set_pc.
    destruct (decide (t = u)) as [<-|Hne]; [by rewrite Hi|].
    apply inv_seen0.
  - intros k th Hk Hr. rewrite pc_of_set_pc.
    apply lookup_alter_Some in Hk as (th0 & Hk & [[Hne ->]|[-> ->]]).
    + destruct (decide (t = tid th0)) as [Heq|]; [|by eapply inv_request0].
      destruct Hne. by eapply getThread_unique.
    + simpl in *. apply scan_threads_Some in Hi as (th1 & Hi & Ht1).
      simplify_eq. rewrite decide_True by done. by apply Hreq.
  - done.
  - intros u l. rewrite pc_of_set_pc.
    destruct (decide (t = u)) as [<-|Hne]; [intros ?; by destruct (Hp2 l)|].
    apply inv_waiting0.
Qed.

(** A transition that rewrites an assignment edge and a mutex. *)
Lemma inv_alter_assignment o j m s :
  inv s →
  (∀ i, o = Some i → i < length (threads (graph s))) →
  (∀ l, is_Some (mutexes s !! l) → is_Some (m !! l)) →
  inv (mk_state (with_resources (alter (set_assignment o) j (resources (graph s)))
                   (graph s))
         (firstRun s) (sem_inits s) m (pcs s)).
Proof.
  intros [] Ho Hm. split; simpl; try done.
  - by apply wf_alter_assignment.
  - by apply all_clear_alter_resources.
  - intros k r Hk. apply Hm.
    apply lookup_alter_Some in Hk as (r0 & Hk & [[_ ->]|[_ ->]]);
      simpl; by eapply inv_mutex0.
  - intros u l Hu. rewrite getResource_alter by done. by eapply inv_waiting0.
Qed.

Lemma with_graph_same s : with_graph (graph s) s = s.
Proof. by destruct s. Qed.

Lemma insert_keeps_some (m : gmap Z bool) l b k :
  is_Some (m !! k) → is_Some (<[l := b]> m !! k).
Proof.
  intros Hk. destruct (decide (l = k)) as [->|Hne].
  - by rewrite lookup_insert_eq.
  - by rewrite lookup_insert_ne.
Qed.

Lemma inv_with_mutex l b s : inv s → inv (with_mutex l b s).
Proof.
  intros []. split; simpl; try done.
  intros j r Hj. apply insert_keeps_some. by eapply inv_mutex0.
Qed.

Lemma isNewThread_getThread t g :
  rag_isNewThread t g = true ↔ rag_getThread t g = None.
Proof. apply scan_isNew_spec. Qed.

Lemma inv_step t s s' : inv s → lock_step t s = Next s' → inv s'.
Proof.
  intros Hinv H. unfold lock_step in H.
  destruct (pc_of t s) as [ret|l|l|l|l|l|l|l|l] eqn:Hpc.
  - done.
  - simplify_eq. apply inv_set_pc; [done|..].
    + intros l' Hp. apply isNewThread_getThread.
      by destruct (rag_isNewThread t (graph s)).
    + destruct (rag_isNewThread t (graph s)) eqn:Hnew; [done|]. intros _.
      destruct (rag_getThread t (graph s)) eqn:Hget; [done|].
      apply isNewThread_getThread in Hget. congruence.
    + by rewrite Hpc.
    + intros l'. by destruct (rag_isNewThread t (graph s)).
  - simplify_eq. by apply inv_addThread.
  - destruct (rag_setRequest t l (graph s)) as [g|] eqn:Hset; simplify_eq.
    unfold rag_setRequest in Hset.
    destruct (rag_getThread t (graph s)) as [i|] eqn:Hi; simplify_eq/=.
    apply inv_alter_request; try done. intros j. apply getResource_lt.
  - destruct (rag_checkForCycles t (graph s)) as [[b g]|] eqn:Hc; simplify_eq.
    apply checkForCycles_graph in Hc as ->; [|apply Hinv].
    rewrite with_graph_same. apply inv_set_pc; [done|..].
    + intros l'. by destruct b.
    + intros _. apply Hinv. by rewrite Hpc.
    + by destruct b.
    + intros l'. by destruct b.
  - destruct (rag_setAssignment t l (graph s)) as [g|] eqn:Hset; simplify_eq.
    unfold rag_setAssignment in Hset.
    destruct (rag_getResource l (graph s)) as [j|] eqn:Hj; simplify_eq/=.
    apply inv_set_pc.
    + apply (inv_alter_assignment _ j (mutexes s)); [done| |done].
      intros i. apply getThread_lt.
    + done.
    + intros _. apply (inv_seen _ Hinv). by rewrite Hpc.
    + done.
    + intros l' [= <-]. simpl. rewrite getResource_alter by done. by rewrite Hj.
  - destruct (mutexes s !! l) as [[|]|] eqn:Hm; simplify_eq.
    apply inv_set_pc; [by apply inv_with_mutex|done|..].
    + intros _. apply (inv_seen _ Hinv). by rewrite Hpc.
    + done.
    + done.
  - destruct (rag_removeRequest t (graph s)) as [g|] eqn:Hrm; simplify_eq.
    unfold rag_removeRequest in Hrm.
    destruct (rag_getThread t (graph s)) as [i|] eqn:Hi; simplify_eq/=.
    apply inv_alter_request; done.
  - destruct (rag_removeRequest t (graph s)) as [g|] eqn:Hrm; simplify_eq.
    unfold rag_removeRequest in Hrm.
    destruct (rag_getThread t (graph s)) as [i|] eqn:Hi; simplify_eq/=.
    apply inv_alter_request; done.
Qed.

Lemma inv_init_lock l s : inv s → inv (init_lock l s).
Proof.
  intros []. unfold init_lock.
  assert (∀ u, pc_of u (if firstRun s
            then mk_state (graph s) false (S (sem_inits s)) (mutexes s) (pcs s)
            else s) = pc_of u s) as Hpc by (intros u; by destruct (firstRun s)).
  split; destruct (firstRun s); simpl in *;
    try (by apply wf_addResource); try (by apply all_clear_addResource);
    try done;
    try (intros j r Hj; apply lookup_app_Some in Hj as [Hj|[_ Hj]];
         [ apply insert_keeps_some; by eapply inv_mutex0
         | apply list_lookup_singleton_Some in Hj as [_ <-]; simpl;
           by rewrite lookup_insert_eq ]);
    try (intros u l' Hu; rewrite getResource_addResource;
         destruct (inv_waiting0 u l' Hu) as [j ->]; done).
Qed.

Lemma inv_unlock l s s' : inv s → unlock l s = Some s' → inv s'.
Proof.
  intros Hinv H. unfold unlock, rag_removeAssignment in H.
  destruct (rag_getResource l (graph s)) as [j|]; simplify_eq/=.
  apply (inv_alter_assignment None j (<[l:=false]> (mutexes s)) s); [done|done|].
  intros k. apply insert_keeps_some.
Qed.

Lemma inv_action a s s' : inv s → do_action a s = Some s' → inv s'.
Proof.
  intros Hinv H. destruct a as [l|l|t l|t]; simpl in H.
  - simplify_eq. by apply inv_init_lock.
  - by eapply inv_unlock.
  - destruct (pc_of t s) eqn:Hpc; simplify_eq/=.
    apply inv_set_pc; try done. by rewrite Hpc.
  - destruct (lock_step t s) eqn:Hst; simplify_eq. by eapply inv_step.
Qed.

Lemma inv_run acts : ∀ s s', inv s → run acts s = Some s' → inv s'.
Proof.
  induction acts as [|a acts IH]; intros s s' Hinv H; simpl in H.
  - by simplify_eq.
  - destruct (do_action a s) as [s1|] eqn:Ha; simplify_eq/=.
    eapply IH; [|done]. by eapply inv_action.
Qed.

Lemma inv_reachable s : reachable s → inv s.
Proof.
  induction 1 as [|a s s' _ IH Ha]; [apply inv_init | by eapply inv_action].
Qed.

Lemma run_reachable acts : ∀ s s', reachable s → run acts s = Some s' → reachable s'.
Proof.
  induction acts as [|a acts IH]; intros s s' Hs H; simpl in H.
  - by simplify_eq.
  - destruct (do_action a s) as [s1|] eqn:Ha; simplify_eq/=.
    eapply IH; [|done]. by eapply reachable_action.
Qed.

Lemma run_app acts1 acts2 s :
  run (acts1 ++ acts2) s = run acts1 s ≫= run acts2.
Proof.
  revert s. induction acts1 as [|a acts1 IH]; intros s; simpl; [done|].
  destruct (do_action a s); simpl; [apply IH | done].
Qed.

Lemma reachable_run s : reachable s ↔ ∃ acts, run acts init_state = Some s.
Proof.
  split.
  - induction 1 as [|a s s' _ [acts IH] Ha]; [by exists []|].
    exists (acts ++ [a]). rewrite run_app, IH. simpl. by rewrite Ha.
  - intros [acts H]. eapply run_reachable; [apply reachable_init | done].
Qed.

(** ** Cycles when one edge changes *)

Lemma follow_None_le g x m n :
  follow m g x = None → m ≤ n → follow n g x = None.
Proof.
  intros Hm Hle. replace n with (m + (n - m)) by lia.
  by rewrite follow_plus, Hm.
Qed.

Lemma follow_avoid g g' z :
  (∀ y, y ≠ z → edge g' y = edge g y) →
  ∀ n x, (∀ m, m < n → follow m g' x ≠ Some z) →
         follow n g' x = follow n g x.
Proof.
  intros He n. induction n as [|n IH]; intros x Hav; [done|].
  rewrite !follow_S. rewrite <-IH by (intros m Hm; apply Hav; lia).
  destruct (follow n g' x) as [y|] eqn:Hy; [|done]. simpl.
  apply He. intros ->. by apply (Hav n); [lia|].
Qed.

Lemma passes_or_avoids g x z n :
  (∃ m, m < n ∧ follow m g x = Some z) ∨
  (∀ m, m < n → follow m g x ≠ Some z).
Proof.
  induction n as [|n [(m & Hm & Hz)|IH]].
  - right. intros m Hm. lia.
  - left. exists m. split; [lia|done].
  - destruct (decide (follow n g x = Some z)) as [Hz|Hz].
    + left. exists n. split; [lia|done].
    + right. intros m Hm. destruct (decide (m = n)) as [->|]; [done|].
      apply IH. lia.
Qed.

Lemma cycle_shift g x y m n :
  follow m g x = Some y → follow n g x = Some x → follow n g y = Some y.
Proof.
  intros Hm Hn.
  assert (follow (m + n) g x = follow n g y) as H1.
  { by rewrite follow_plus, Hm. }
  assert (follow (n + m) g x = Some y) as H2.
  { by rewrite follow_plus, Hn. }
  rewrite Nat.add_comm, H1 in H2. done.
Qed.

(** A transition that moves no edge. *)
Lemma guard_same_edges s s' :
  cycle_guard s →
  (∀ x, edge (graph s') x = edge (graph s) x) →
  (∀ i th n, 0 < n → follow n (graph s) (ThreadNode i) = Some (ThreadNode i) →
     threads (graph s) !! i = Some th →
     in_cycle_phase (pc_of (tid th) s) = true →
     ∃ th', threads (graph s') !! i = Some th' ∧
            in_cycle_phase (pc_of (tid th') s') = true) →
  cycle_guard s'.
Proof.
  intros Hg He Hkeep x n Hn Hx.
  rewrite (follow_ext _ _ He) in Hx.
  destruct (Hg x n Hn Hx) as (m & i & th & Hm & Hf & Hth & Hp).
  destruct (Hkeep i th n Hn (cycle_shift _ _ _ _ _ Hf Hx) Hth Hp)
    as (th' & Hth' & Hp').
  exists m, i, th'. by rewrite (follow_ext _ _ He).
Qed.

(** A transition that moves the edge of the node [z] only. *)
Lemma guard_change_edge s s' z :
  cycle_guard s →
  (∀ y, y ≠ z → edge (graph s') y = edge (graph s) y) →
  (∀ x n m, 0 < n → follow n (graph s') x = Some x →
     m < n → follow m (graph s') x = Some z →
     ∃ m' i th, m' < n ∧ follow m' (graph s') x = Some (ThreadNode i) ∧
                threads (graph s') !! i = Some th ∧
                in_cycle_phase (pc_of (tid th) s') = true) →
  (∀ i th, ThreadNode i ≠ z → threads (graph s) !! i = Some th →
     in_cycle_phase (pc_of (tid th) s) = true →
     ∃ th', threads (graph s') !! i = Some th' ∧
            in_cycle_phase (pc_of (tid th') s') = true) →
  cycle_guard s'.
Proof.
  intros Hg He Hthrough Hkeep x n Hn Hx.
  destruct (passes_or_avoids (graph s') x z n) as [(m & Hm & Hz)|Hav].
  { by apply (Hthrough x n m). }
  pose proof (follow_avoid _ _ z He n x Hav) as Hsame.
  rewrite Hsame in Hx.
  destruct (Hg x n Hn Hx) as (m & i & th & Hm & Hf & Hth & Hp).
  assert (follow m (graph s') x = Some (ThreadNode i)) as Hf'.
  { rewrite (follow_avoid _ _ z He m x); [done|]. intros k Hk. apply Hav. lia. }
  destruct (Hkeep i th) as (th' & Hth' & Hp'); [|done|done|].
  { intros <-. by apply (Hav m). }
  by exists m, i, th'.
Qed.

(** A node without outgoing edge is on no cycle. *)
Lemma cycle_not_through_dead g x z m n :
  edge g z = None → follow n g x = Some x → m < n →
  follow m g x = Some z → False.
Proof.
  intros He Hx Hm Hz.
  assert (follow (S m) g x = None) as Hd by (by rewrite follow_S, Hz).
  by rewrite (follow_None_le g x (S m) n Hd) in Hx by lia.
Qed.

(** ** Effect of the operations on edges *)

Lemma edge_addThread t g x : edge (rag_addThread t g) x = edge g x.
Proof.
  destruct x as [k|k]; simpl; [|done].
  destruct (threads g !! k) as [th|] eqn:Hk.
  - by rewrite (lookup_app_l_Some _ _ _ _ Hk).
  - apply lookup_ge_None in Hk. rewrite lookup_app_r by done.
    by destruct (k - length (threads g)) as [|[|?]].
Qed.

Lemma edge_addResource l g x : edge (rag_addResource l g) x = edge g x.
Proof.
  destruct x as [k|k]; simpl; [done|].
  destruct (resources g !! k) as [r|] eqn:Hk.
  - by rewrite (lookup_app_l_Some _ _ _ _ Hk).
  - apply lookup_ge_None in Hk. rewrite lookup_app_r by done.
    by destruct (k - length (resources g)) as [|[|?]].
Qed.

Lemma edge_alter_request o i g y :
  y ≠ ThreadNode i →
  edge (with_threads (alter (set_request o) i (threads g)) g) y = edge g y.
Proof.
  destruct y as [k|k]; simpl; [|done]. intros Hne.
  rewrite list_lookup_alter_ne; [done|]. by intros ->.
Qed.

Lemma edge_alter_assignment o j g y :
  y ≠ ResourceNode j →
  edge (with_resources (alter (set_assignment o) j (resources g)) g) y = edge g y.
Proof.
  destruct y as [k|k]; simpl; [done|]. intros Hne.
  rewrite list_lookup_alter_ne; [done|]. by intros ->.
Qed.

Lemma edge_request_cleared i g :
  edge (with_threads (alter (set_request None) i (threads g)) g) (ThreadNode i)
  = None.
Proof. simpl. rewrite list_lookup_alter_eq. by destruct (threads g !! i). Qed.

Lemma edge_assignment_set o j g :
  edge (with_resources (alter (set_assignment o) j (resources g)) g)
       (ResourceNode j)
  = resources g !! j ≫= λ _, ThreadNode <$> o.
Proof. simpl. rewrite list_lookup_alter_eq. by destruct (resources g !! j). Qed.

(** ** Cycles pass through a thread that is checked or granted *)

Lemma in_phase_set_pc t p s th :
  in_cycle_phase p = true ∨ tid th ≠ t →
  in_cycle_phase (pc_of (tid th) s) = true →
  in_cycle_phase (pc_of (tid th) (set_pc t p s)) = true.
Proof.
  intros Hp Hth. rewrite pc_of_set_pc.
  destruct (decide (t = tid th)) as [->|]; [by destruct Hp|done].
Qed.

Lemma guard_set_pc t p s :
  cycle_guard s →
  in_cycle_phase (pc_of t s) = false ∨ in_cycle_phase p = true →
  cycle_guard (set_pc t p s).
Proof.
  intros Hg Hp. apply (guard_same_edges s); [done|done|].
  intros i th n _ _ Hth Hin. exists th. split; [done|].
  apply in_phase_set_pc; [|done].
  destruct Hp as [Hp|Hp]; [|by left].
  right. intros Ht. rewrite Ht in Hin. congruence.
Qed.

Lemma guard_request_cleared t p i s :
  inv s → cycle_guard s → rag_getThread t (graph s) = Some i →
  cycle_guard
    (set_pc t p
       (with_graph (with_threads (alter (set_request None) i (threads (graph s)))
                      (graph s)) s)).
Proof.
  intros Hinv Hg Hi. apply (guard_change_edge s _ (ThreadNode i)); [done|..].
  - intros y Hy. by apply edge_alter_request.
  - intros x n m Hn Hx Hm Hz. exfalso.
    eapply cycle_not_through_dead; [|done..]. apply edge_request_cleared.
  - intros k th Hk Hth Hin. exists th. split.
    + simpl. rewrite list_lookup_alter_ne; [done|]. by intros ->.
    + apply in_phase_set_pc; [|done]. right. intros Ht.
      destruct Hk. f_equal. by eapply getThread_unique; [apply Hinv|..].
Qed.

Lemma guard_assignment_cleared j m s :
  cycle_guard s →
  cycle_guard
    (mk_state (with_resources (alter (set_assignment None) j (resources (graph s)))
                 (graph s))
       (firstRun s) (sem_inits s) m (pcs s)).
Proof.
  intros Hg. apply (guard_change_edge s _ (ResourceNode j)); [done|..].
  - intros y Hy. by apply edge_alter_assignment.
  - intros x n k Hn Hx Hk Hz. exfalso.
    eapply cycle_not_through_dead; [|done..].
    cbn [graph]. rewrite edge_assignment_set.
    by destruct (resources (graph s) !! j).
  - intros k th _ Hth Hin. by exists th.
Qed.

Lemma guard_request_set t l o i s :
  inv s → cycle_guard s → rag_getThread t (graph s) = Some i →
  cycle_guard
    (set_pc t (AtCheckForCycles l)
       (with_graph (with_threads (alter (set_request o) i (threads (graph s)))
                      (graph s)) s)).
Proof.
  intros Hinv Hg Hi. pose proof Hi as (th0 & Hth0 & Ht0)%scan_threads_Some.
  apply (guard_change_edge s _ (ThreadNode i)); [done|..].
  - intros y Hy. by apply edge_alter_request.
  - intros x n m Hn Hx Hm Hz. exists m, i, (set_request o th0).
    split; [done|]. split; [done|]. split.
    + simpl. by rewrite list_lookup_alter_eq, Hth0.
    + simpl. by rewrite Ht0, pc_of_set_pc, decide_True.
  - intros k th Hk Hth Hin. exists th. split.
    + simpl. rewrite list_lookup_alter_ne; [done|]. by intros ->.
    + apply in_phase_set_pc; [by left|done].
Qed.

Lemma guard_assignment_set t l i j s :
  inv s → cycle_guard s →
  rag_getThread t (graph s) = Some i → rag_getResource l (graph s) = Some j →
  cycle_guard
    (set_pc t (AtMutexLock l)
       (with_graph (with_resources
                      (alter (set_assignment (Some i)) j (resources (graph s)))
                      (graph s)) s)).
Proof.
  intros Hinv Hg Hi Hj. pose proof Hi as (th0 & Hth0 & Ht0)%scan_threads_Some.
  pose proof Hj as (r & Hr & _)%scan_resources_Some.
  apply (guard_change_edge s _ (ResourceNode j)); [done|..].
  - intros y Hy. by apply edge_alter_assignment.
  - intros x n m Hn Hx Hm Hz.
    assert (follow (S m) (graph (set_pc t (AtMutexLock l)
              (with_graph (with_resources
                 (alter (set_assignment (Some i)) j (resources (graph s)))
                 (graph s)) s))) x = Some (ThreadNode i)) as Hnext.
    { rewrite follow_S, Hz. simpl mbind.
      change (edge (with_resources
                 (alter (set_assignment (Some i)) j (resources (graph s)))
                 (graph s)) (ResourceNode j) = Some (ThreadNode i)).
      by rewrite edge_assignment_set, Hr. }
    assert (in_cycle_phase (pc_of (tid th0) (set_pc t (AtMutexLock l)
              (with_graph (with_resources
                 (alter (set_assignment (Some i)) j (resources (graph s)))
                 (graph s)) s))) = true) as Hin.
    { by rewrite Ht0, pc_of_set_pc, decide_True. }
    destruct (decide (S m = n)) as [Heq|Hne].
    + rewrite Heq, Hx in Hnext. simplify_eq. by exists 0, i, th0.
    + exists (S m), i, th0. split; [lia|done].
  - intros k th _ Hth Hin. exists th. split; [done|].
    apply in_phase_set_pc; [by left|done].
Qed.

Lemma check_false_no_cycle t g g' i n :
  all_clear g → rag_checkForCycles t g = Some (false, g') →
  rag_getThread t g = Some i → 0 < n →
  follow n g (ThreadNode i) = Some (ThreadNode i) → False.
Proof.
  intros Hclear Hc Hi Hn Hcyc. unfold rag_checkForCycles in Hc. rewrite Hi in Hc.
  destruct (rag_depthFirstSearch _ _ _) as [[b g1]|] eqn:Hdfs; [|done].
  simpl in Hc. simplify_eq. apply dfs_sound in Hdfs.
  apply (revisits_not_dead_end g (ThreadNode i)); [|done].
  by exists 0, n, (ThreadNode i).
Qed.

Lemma guard_step t s s' :
  inv s → cycle_guard s → lock_step t s = Next s' → cycle_guard s'.
Proof.
  intros Hinv Hg H. unfold lock_step in H.
  pose proof (inv_seen _ Hinv t) as Hseen.
  destruct (pc_of t s) as [ret|l|l|l|l|l|l|l|l] eqn:Hpc; try done.
  - simplify_eq. apply guard_set_pc; [done|]. left. by rewrite Hpc.
  - simplify_eq. apply (guard_same_edges s); [done|..].
    + intros x. apply edge_addThread.
    + intros i th n _ _ Hth Hin. exists th. split.
      * simpl. by apply lookup_app_l_Some.
      * apply in_phase_set_pc; [|done]. right. intros Ht.
        rewrite Ht, Hpc in Hin. done.
  - unfold rag_setRequest in H. destruct Hseen as [i Hi]; [done|].
    rewrite Hi in H. simplify_eq/=. by apply guard_request_set.
  - destruct (rag_checkForCycles t (graph s)) as [[b g]|] eqn:Hc; simplify_eq.
    pose proof (checkForCycles_graph _ _ _ _ (inv_clear _ Hinv) Hc) as ->.
    rewrite with_graph_same. destruct b.
    + apply guard_set_pc; [done|by right].
    + apply (guard_same_edges s); [done|done|].
      intros i th n Hn Hcyc Hth Hin. exists th. split; [done|].
      apply in_phase_set_pc; [|done]. right. intros Ht.
      destruct Hseen as [k Hk]; [done|].
      assert (i = k) as -> by (by eapply getThread_unique; [apply Hinv|..]).
      by eapply check_false_no_cycle; [apply Hinv|..].
  - unfold rag_setAssignment in H. destruct Hseen as [i Hi]; [done|].
    destruct (rag_getResource l (graph s)) as [j|] eqn:Hj; simplify_eq/=.
    rewrite Hi. by apply guard_assignment_set.
  - destruct (mutexes s !! l) as [[|]|]; simplify_eq.
    apply (guard_set_pc t _ (with_mutex l true s)); [exact Hg|by right].
  - unfold rag_removeRequest in H. destruct Hseen as [i Hi]; [done|].
    rewrite Hi in H. simplify_eq/=. by apply guard_request_cleared.
  - unfold rag_removeRequest in H. destruct Hseen as [i Hi]; [done|].
    rewrite Hi in H. simplify_eq/=. by apply guard_request_cleared.
Qed.

Lemma guard_action a s s' :
  inv s → cycle_guard s → do_action a s = Some s' → cycle_guard s'.
Proof.
  intros Hinv Hg H. destruct a as [l|l|t l|t]; simpl in H.
  - simplify_eq. apply (guard_same_edges s); [done|..].
    + intros x. unfold init_lock. destruct (firstRun s); apply edge_addResource.
    + intros i th n _ _ Hth Hin. exists th. unfold init_lock.
      by destruct (firstRun s).
  - unfold unlock, rag_removeAssignment in H.
    destruct (rag_getResource l (graph s)) as [j|]; simplify_eq/=.
    by apply (guard_assignment_cleared j (<[l:=false]> (mutexes s)) s).
  - destruct (pc_of t s) eqn:Hpc; simplify_eq/=.
    apply guard_set_pc; [done|]. left. by rewrite Hpc.
  - destruct (lock_step t s) eqn:Hst; simplify_eq. by eapply guard_step.
Qed.

Lemma guard_run acts : ∀ s s',
  inv s → cycle_guard s → run acts s = Some s' → cycle_guard s'.
Proof.
  induction acts as [|a acts IH]; intros s s' Hinv Hg H; simpl in H.
  - by simplify_eq.
  - destruct (do_action a s) as [s1|] eqn:Ha; simplify_eq/=.
    eapply IH; [| |done]; [by eapply inv_action | by eapply guard_action].
Qed.

Lemma guard_init : cycle_guard init_state.
Proof.
  intros x n Hn Hx. destruct n as [|n]; [lia|].
  by destruct x as [k|k].
Qed.

(** ** C1 *)

Lemma no_requests_no_cycle g :
  (∀ i th, threads g !! i = Some th → request th = None) → ¬ has_cycle g.
Proof.
  intros Hnone (x & n & Hn & Hf).
  assert (∀ i, edge g (ThreadNode i) = None) as Hedge.
  { intros i. simpl. destruct (threads g !! i) as [th|] eqn:Hi; [|done].
    simpl. by rewrite (Hnone i th Hi). }
  assert (∀ n i, follow (S n) g (ThreadNode i) = None) as Hstop.
  { intros k i. change (edge g (ThreadNode i) ≫= follow k g = None).
    by rewrite Hedge. }
  destruct n as [|n]; [lia|]. destruct x as [i|j].
  - by rewrite Hstop in Hf.
  - change (edge g (ResourceNode j) ≫= follow n g = Some (ResourceNode j)) in Hf.
    destruct (edge g (ResourceNode j)) as [y|] eqn:He; [|done].
    assert (∃ k, y = ThreadNode k) as [k ->].
    { simpl in He. destruct (resources g !! j) as [r|]; [|done].
      simpl in He. destruct (assignment r); simplify_eq/=. eauto. }
    destruct n as [|n]; [done|].
    change (follow (S n) g (ThreadNode k) = Some (ResourceNode j)) in Hf.
    by rewrite Hstop in Hf.
Qed.





(** The crossed acquisition: thread 1 waits for lock 200, and the check
    of thread 2 reports the cycle, so that thread 2 is rejected. *)
Example crossed_acquisition :
  lock_step 1 (final sched_crossed) = Blocked ∧
  pc_of 2 (final sched_crossed) = AtRejectRemoveRequest 100 ∧
  pc_of 2 (final (sched_crossed ++ [Step 2])) = Outside (Some 0%Z).
Proof. repeat (split; [by vm_compute|]). by vm_compute. Qed.

(** ** C9 *)




(** ** C3 *)

(** Neither statement of the writer touches [assign_mutexRw]. *)
Lemma writer_leaves_gate t s s' :
  Admission.loc_of t s = Admission.WW_wait ∨
  Admission.loc_of t s = Admission.WS_post →
  Admission.step t s = Some s' →
  Admission.assign_mutexRw (Admission.sem s') =
  Admission.assign_mutexRw (Admission.sem s).
Proof.
  unfold Admission.step. intros [Hl|Hl]; rewrite Hl; intros H.
  - unfold Admission.rag_writerWait in H. rewrite Hl in H.
    by destruct (Admission.sem_wait _); simplify_eq/=.
  - unfold Admission.rag_writerSignal in H. rewrite Hl in H. by simplify_eq/=.
Qed.

(** C3 fails on the code.  [rag_writerWait] waits on [assign_mutex], the
    semaphore that guards the reader count, and not on [assign_mutexRw],
    the gate the first reader claims.  After thread 1 has completed
    [rag_readerWait], thread 2 completes [rag_writerWait] at once: it
    holds write permission while one reader is active and the gate is
    still claimed by that reader. *)
Theorem C3_writer_enters_with_reader :
  ∃ s, Admission.run sched_reader_writer Admission.init = Some s ∧
       Admission.loc_of 1 s = Admission.Reading ∧
       Admission.loc_of 2 s = Admission.Writing ∧
       Admission.assign_readers (Admission.sem s) = 1%Z ∧
       Admission.assign_mutexRw (Admission.sem s) = 0%Z ∧
       Admission.assign_mutex (Admission.sem s) = 0%Z.
Proof.
  eexists. split; [by vm_compute|]. by vm_compute.
Qed.

(** ** C7 *)


Lemma nodes_of_addResource l l' g :
  nodes_of l (rag_addResource l' g) =
  nodes_of l g + (if bool_decide (l' = l) then 1 else 0).
Proof.
  unfold nodes_of. simpl. rewrite filter_app, length_app. f_equal.
  rewrite filter_cons. simpl. case_bool_decide; by case_decide.
Qed.





(** ** C8 *)

(** C8. For a lock with a resource node, [unlock] returns; it clears
    the assignment edge of the node found for the lock and unlocks the
    mutex of the lock.  The thread nodes (request edges, markers), the
    number of resource nodes, every other resource node, the lock and
    marker of the node itself, every other mutex and the control points
    of the threads are as before. *)
Theorem C8_unlock_frame l s :
  is_Some (rag_getResource l (graph s)) →
  ∃ s' j r,
    unlock l s = Some s' ∧
    rag_getResource l (graph s) = Some j ∧
    resources (graph s) !! j = Some r ∧
    resources (graph s') !! j =
      Some (mk_resource None (res_lock r) (res_travelled r)) ∧
    (∀ k, k ≠ j → resources (graph s') !! k = resources (graph s) !! k) ∧
    length (resources (graph s')) = length (resources (graph s)) ∧
    threads (graph s') = threads (graph s) ∧
    mutexes s' !! l = Some false ∧
    (∀ l', l' ≠ l → mutexes s' !! l' = mutexes s !! l') ∧
    pcs s' = pcs s ∧ firstRun s' = firstRun s ∧ sem_inits s' = sem_inits s.
Proof.
  intros [j Hj]. pose proof Hj as Hj'.
  apply scan_resources_Some in Hj' as (r & Hr & Hl).
  unfold unlock, rag_removeAssignment. rewrite Hj. simpl.
  eexists _, j, r. split; [done|]. simpl.
  repeat split; try done.
  - by rewrite list_lookup_alter_eq, Hr.
  - intros k Hk. by rewrite list_lookup_alter_ne.
  - by rewrite length_alter.
  - by rewrite lookup_insert_eq.
  - intros l' Hl'. by rewrite lookup_insert_ne.
Qed.

Lemma C8_unlock_frame_witness :
  is_Some (rag_getResource 100 (graph (final sched_granted))) ∧
  (∃ s' j r,
    unlock 100 (final sched_granted) = Some s' ∧
    rag_getResource 100 (graph (final sched_granted)) = Some j ∧
    resources (graph (final sched_granted)) !! j = Some r ∧
    resources (graph s') !! j =
      Some (mk_resource None (res_lock r) (res_travelled r)) ∧
    (∀ k, k ≠ j → resources (graph s') !! k =
                  resources (graph (final sched_granted)) !! k) ∧
    length (resources (graph s')) =
      length (resources (graph (final sched_granted))) ∧
    threads (graph s') = threads (graph (final sched_granted)) ∧
    mutexes s' !! 100%Z = Some false ∧
    (∀ l', l' ≠ 100%Z → mutexes s' !! l' = mutexes (final sched_granted) !! l') ∧
    pcs s' = pcs (final sched_granted) ∧
    firstRun s' = firstRun (final sched_granted) ∧
    sem_inits s' = sem_inits (final sched_granted)).
Proof.
  split; [vm_compute; eexists; reflexivity|].
  apply (C8_unlock_frame 100 (final sched_granted)).
  vm_compute. eexists. reflexivity.
Defined.

(** ** C10 *)





(** ** C4 *)

(** C4, as stated, fails: thread 1 holds lock 100 and asks for it again.
    The check reports a cycle and the call returns 0, but the assignment
    edge from the node of the lock to the node of the thread is still
    there: the thread still holds the lock. *)
Lemma C4_assignment_edge_remains :
  ∃ s0 s,
    run sched_relock init_state = Some s0 ∧
    pc_of 1 s0 = AtCheckForCycles 100 ∧
    fst <$> rag_checkForCycles 1 (graph s0) = Some true ∧
    run [Step 1; Step 1] s0 = Some s ∧
    pc_of 1 s = Outside (Some 0%Z) ∧
    rag_getThread 1 (graph s) = Some 0 ∧
    rag_getResource 100 (graph s) = Some 0 ∧
    assignment <$> resources (graph s) !! 0 = Some (Some 0).
Proof.
  exists (final sched_relock), (final sched_rejected).
  repeat (split; [by vm_compute|]). by vm_compute.
Qed.

(** The statements of [lock] before the cycle check touch neither a
    resource node nor a mutex. *)
Lemma before_check_frame t l s s' :
  pc_of t s = AtIsNewThread l ∨ pc_of t s = AtAddThread l ∨
  pc_of t s = AtSetRequest l →
  lock_step t s = Next s' →
  resources (graph s') = resources (graph s) ∧ mutexes s' = mutexes s.
Proof.
  unfold lock_step. intros [Hpc|[Hpc|Hpc]]; rewrite Hpc; intros H.
  - by simplify_eq.
  - by simplify_eq.
  - unfold rag_setRequest in H.
    by destruct (rag_getThread t (graph s)); simplify_eq/=.
Qed.

(** C4, amended.  When the cycle check of a thread reports a cycle, the
    thread goes to the rejection branch, clears its request edge and
    returns 0; neither statement can block, none touches a mutex, and
    every resource node, with its assignment edge, is as it was before
    the check and, by the statements before the check, as it was when
    the thread entered [lock].  Afterwards no node of the thread carries
    a request edge.  An assignment edge from the resource to the thread
    is there afterwards exactly if it was there before. *)
Theorem C4_rejected acts s t l g' :
  run acts init_state = Some s →
  pc_of t s = AtCheckForCycles l →
  rag_checkForCycles t (graph s) = Some (true, g') →
  ∃ s1 s2,
    lock_step t s = Next s1 ∧ pc_of t s1 = AtRejectRemoveRequest l ∧
    lock_step t s1 = Next s2 ∧ pc_of t s2 = Outside (Some 0%Z) ∧
    rag_removeRequest t (graph s) = Some (graph s2) ∧
    resources (graph s2) = resources (graph s) ∧
    mutexes s1 = mutexes s ∧ mutexes s2 = mutexes s ∧
    (∀ k th, threads (graph s2) !! k = Some th → tid th = t →
             request th = None) ∧
    (∀ s0 s0',
       pc_of t s0 = AtIsNewThread l ∨ pc_of t s0 = AtAddThread l ∨
       pc_of t s0 = AtSetRequest l →
       lock_step t s0 = Next s0' →
       resources (graph s0') = resources (graph s0) ∧ mutexes s0' = mutexes s0).
Proof.
  intros Hrun Hpc Hc. pose proof (inv_run acts _ _ inv_init Hrun) as Hinv.
  pose proof (checkForCycles_graph _ _ _ _ (inv_clear _ Hinv) Hc) as ->.
  destruct (inv_seen _ Hinv t) as [i Hi]; [by rewrite Hpc|].
  set (s1 := set_pc t (AtRejectRemoveRequest l) (with_graph (graph s) s)).
  assert (lock_step t s = Next s1) as Hs1.
  { unfold lock_step. by rewrite Hpc, Hc. }
  assert (pc_of t s1 = AtRejectRemoveRequest l) as Hpc1.
  { unfold s1. by rewrite pc_of_set_pc, decide_True. }
  destruct (rag_removeRequest t (graph s)) as [g4|] eqn:Hrm; cycle 1.
  { unfold rag_removeRequest in Hrm. by rewrite Hi in Hrm. }
  set (s2 := set_pc t (Outside (Some 0%Z)) (with_graph g4 s1)).
  assert (lock_step t s1 = Next s2) as Hs2.
  { unfold lock_step. rewrite Hpc1. simpl. by rewrite Hrm. }
  assert (pc_of t s2 = Outside (Some 0%Z)) as Hpc2.
  { unfold s2. by rewrite pc_of_set_pc, decide_True. }
  pose proof (inv_step _ _ _ (inv_step _ _ _ Hinv Hs1) Hs2) as Hinv2.
  exists s1, s2. repeat split; try done.
  - unfold rag_removeRequest in Hrm. rewrite Hi in Hrm. by simplify_eq/=.
  - intros k th Hk Ht. destruct (request th) as [j|] eqn:Hreq; [|done].
    pose proof (inv_request _ Hinv2 k th Hk) as Hr.
    rewrite Hreq, Ht, Hpc2 in Hr. by discriminate Hr.
  - by eapply before_check_frame.
  - by eapply before_check_frame.
Qed.

Lemma C4_rejected_witness :
  run sched_relock init_state = Some (final sched_relock) ∧
  pc_of 1 (final sched_relock) = AtCheckForCycles 100 ∧
  rag_checkForCycles 1 (graph (final sched_relock)) =
    Some (true, graph (final sched_relock)) ∧
  (∃ s1 s2,
    lock_step 1 (final sched_relock) = Next s1 ∧
    pc_of 1 s1 = AtRejectRemoveRequest 100 ∧
    lock_step 1 s1 = Next s2 ∧ pc_of 1 s2 = Outside (Some 0%Z) ∧
    rag_removeRequest 1 (graph (final sched_relock)) = Some (graph s2) ∧
    resources (graph s2) = resources (graph (final sched_relock)) ∧
    mutexes s1 = mutexes (final sched_relock) ∧
    mutexes s2 = mutexes (final sched_relock) ∧
    (∀ k th, threads (graph s2) !! k = Some th → tid th = 1%Z →
             request th = None) ∧
    (∀ s0 s0',
       pc_of 1 s0 = AtIsNewThread 100 ∨ pc_of 1 s0 = AtAddThread 100 ∨
       pc_of 1 s0 = AtSetRequest 100 →
       lock_step 1 s0 = Next s0' →
       resources (graph s0') = resources (graph s0) ∧ mutexes s0' = mutexes s0)).
Proof.
  split; [vm_compute; reflexivity|].
  split; [vm_compute; reflexivity|].
  split; [vm_compute; reflexivity|].
  apply (C4_rejected sched_relock (final sched_relock) 1 100
           (graph (final sched_relock))); vm_compute; reflexivity.
Defined.

(** ** C5 *)

(** C5. When the cycle check of a thread acquiring a registered lock
    reports no cycle, the next statement of the thread sets the
    assignment edge from the node of the lock to the node of the thread
    and leaves the request edge and the mutex alone; the statement after
    it is the wait on the mutex of the lock, which suspends the thread
    while the mutex is locked and otherwise locks it; the statement
    after that clears the request edge, keeps the assignment edge, and
    the call returns 1. *)
Theorem C5_granted acts s t l g' :
  run acts init_state = Some s →
  pc_of t s = AtCheckForCycles l →
  rag_checkForCycles t (graph s) = Some (false, g') →
  is_Some (rag_getResource l (graph s)) →
  ∃ i j g4 g5 s1 s2,
    rag_getThread t (graph s) = Some i ∧
    rag_getResource l (graph s) = Some j ∧
    lock_step t s = Next s1 ∧ pc_of t s1 = AtSetAssignment l ∧
    graph s1 = graph s ∧ mutexes s1 = mutexes s ∧
    lock_step t s1 = Next s2 ∧ pc_of t s2 = AtMutexLock l ∧
    rag_setAssignment t l (graph s) = Some g4 ∧
    graph s2 = g4 ∧ mutexes s2 = mutexes s ∧
    threads g4 = threads (graph s) ∧
    assignment <$> resources g4 !! j = Some (Some i) ∧
    rag_removeRequest t g4 = Some g5 ∧
    resources g5 = resources g4 ∧
    request <$> threads g5 !! i = Some None ∧
    is_Some (mutexes s !! l) ∧
    (mutexes s !! l = Some true → lock_step t s2 = Blocked) ∧
    (mutexes s !! l = Some false →
       ∃ s3 s4,
         lock_step t s2 = Next s3 ∧ pc_of t s3 = AtGrantRemoveRequest l ∧
         graph s3 = g4 ∧ mutexes s3 = <[l := true]> (mutexes s) ∧
         lock_step t s3 = Next s4 ∧ pc_of t s4 = Outside (Some 1%Z) ∧
         graph s4 = g5 ∧ mutexes s4 = <[l := true]> (mutexes s)).
Proof.
  intros Hrun Hpc Hc [j Hj]. pose proof (inv_run acts _ _ inv_init Hrun) as Hinv.
  pose proof (checkForCycles_graph _ _ _ _ (inv_clear _ Hinv) Hc) as ->.
  destruct (inv_seen _ Hinv t) as [i Hi]; [by rewrite Hpc|].
  pose proof Hi as (th & Hth & Htid)%scan_threads_Some.
  pose proof Hj as (r & Hr & Hlock)%scan_resources_Some.
  set (s1 := set_pc t (AtSetAssignment l) (with_graph (graph s) s)).
  set (g4 := with_resources (alter (set_assignment (Some i)) j
                               (resources (graph s))) (graph s)).
  set (g5 := with_threads (alter (set_request None) i (threads g4)) g4).
  set (s2 := set_pc t (AtMutexLock l) (with_graph g4 s1)).
  assert (rag_setAssignment t l (graph s) = Some g4) as Hset.
  { unfold rag_setAssignment. by rewrite Hj, Hi. }
  assert (rag_removeRequest t g4 = Some g5) as Hrm.
  { unfold rag_removeRequest.
    change (rag_getThread t g4) with (rag_getThread t (graph s)). by rewrite Hi. }
  assert (pc_of t s1 = AtSetAssignment l) as Hpc1.
  { unfold s1. by rewrite pc_of_set_pc, decide_True. }
  assert (pc_of t s2 = AtMutexLock l) as Hpc2.
  { unfold s2. by rewrite pc_of_set_pc, decide_True. }
  exists i, j, g4, g5, s1, s2. repeat split; try done.
  - unfold lock_step. by rewrite Hpc, Hc.
  - unfold lock_step. rewrite Hpc1. simpl. by rewrite Hset.
  - simpl. by rewrite list_lookup_alter_eq, Hr.
  - simpl. by rewrite list_lookup_alter_eq, Hth.
  - rewrite <-Hlock. by apply (inv_mutex _ Hinv j r).
  - intros Hm. unfold lock_step. rewrite Hpc2. simpl. by rewrite Hm.
  - intros Hm.
    set (s3 := set_pc t (AtGrantRemoveRequest l) (with_mutex l true s2)).
    assert (pc_of t s3 = AtGrantRemoveRequest l) as Hpc3.
    { unfold s3. by rewrite pc_of_set_pc, decide_True. }
    exists s3, (set_pc t (Outside (Some 1%Z)) (with_graph g5 s3)).
    repeat split; try done.
    + unfold lock_step. rewrite Hpc2. simpl. by rewrite Hm.
    + unfold lock_step. rewrite Hpc3. simpl. by rewrite Hrm.
    + by rewrite pc_of_set_pc, decide_True.
Qed.

Lemma C5_granted_witness :
  run sched_checking init_state = Some (final sched_checking) ∧
  pc_of 1 (final sched_checking) = AtCheckForCycles 100 ∧
  rag_checkForCycles 1 (graph (final sched_checking)) =
    Some (false, graph (final sched_checking)) ∧
  is_Some (rag_getResource 100 (graph (final sched_checking))) ∧
  (∃ i j g4 g5 s1 s2,
    rag_getThread 1 (graph (final sched_checking)) = Some i ∧
    rag_getResource 100 (graph (final sched_checking)) = Some j ∧
    lock_step 1 (final sched_checking) = Next s1 ∧
    pc_of 1 s1 = AtSetAssignment 100 ∧
    graph s1 = graph (final sched_checking) ∧
    mutexes s1 = mutexes (final sched_checking) ∧
    lock_step 1 s1 = Next s2 ∧ pc_of 1 s2 = AtMutexLock 100 ∧
    rag_setAssignment 1 100 (graph (final sched_checking)) = Some g4 ∧
    graph s2 = g4 ∧ mutexes s2 = mutexes (final sched_checking) ∧
    threads g4 = threads (graph (final sched_checking)) ∧
    assignment <$> resources g4 !! j = Some (Some i) ∧
    rag_removeRequest 1 g4 = Some g5 ∧
    resources g5 = resources g4 ∧
    request <$> threads g5 !! i = Some None ∧
    is_Some (mutexes (final sched_checking) !! 100%Z) ∧
    (mutexes (final sched_checking) !! 100%Z = Some true →
     lock_step 1 s2 = Blocked) ∧
    (mutexes (final sched_checking) !! 100%Z = Some false →
       ∃ s3 s4,
         lock_step 1 s2 = Next s3 ∧ pc_of 1 s3 = AtGrantRemoveRequest 100 ∧
         graph s3 = g4 ∧
         mutexes s3 = <[100%Z := true]> (mutexes (final sched_checking)) ∧
         lock_step 1 s3 = Next s4 ∧ pc_of 1 s4 = Outside (Some 1%Z) ∧
         graph s4 = g5 ∧
         mutexes s4 = <[100%Z := true]> (mutexes (final sched_checking)))).
Proof.
  split; [vm_compute; reflexivity|].
  split; [vm_compute; reflexivity|].
  split; [vm_compute; reflexivity|].
  split; [vm_compute; eexists; reflexivity|].
  apply (C5_granted sched_checking (final sched_checking) 1 100
           (graph (final sched_checking)));
    vm_compute; try reflexivity. eexists. reflexivity.
Defined.

(** * Further properties of the graph store *)

Lemma alter_fixed {A} (f : A → A) (l : list A) i x :
  l !! i = Some x → f x = x → alter f i l = l.
Proof.
  intros Hi Hf. apply list_eq. intros k.
  destruct (decide (i = k)) as [<-|Hne].
  - by rewrite list_lookup_alter_eq, Hi; simpl; rewrite Hf.
  - by rewrite list_lookup_alter_ne.
Qed.

Lemma alter_twice {A} (f g : A → A) (l : list A) i :
  (∀ x, f (g x) = f x) → alter f i (alter g i l) = alter f i l.
Proof.
  intros Hfg. rewrite list_alter_alter_eq. apply list_alter_ext; [|done].
  intros x _. apply Hfg.
Qed.

Lemma with_threads_same g : with_threads (threads g) g = g.
Proof. by destruct g. Qed.

Lemma with_resources_same g : with_resources (resources g) g = g.
Proof. by destruct g. Qed.

(** X1. [rag_isNewThread] answers true exactly when [rag_getThread]
    finds no node.  After [rag_addThread t] the lookup of [t] finds a
    node with that id: the new node at the tail, without request edge,
    when [t] had none, and otherwise the node it found before.  The
    lookups of every other id, the nodes that were there and the
    resource nodes are unchanged. *)
Theorem X1_addThread_lookup t u g :
  (rag_isNewThread u g = true ↔ rag_getThread u g = None) ∧
  rag_isNewThread t (rag_addThread t g) = false ∧
  (∃ i th, rag_getThread t (rag_addThread t g) = Some i ∧
           threads (rag_addThread t g) !! i = Some th ∧ tid th = t) ∧
  (rag_getThread t g = None →
     rag_getThread t (rag_addThread t g) = Some (length (threads g)) ∧
     threads (rag_addThread t g) !! length (threads g) =
       Some (mk_thread None t false)) ∧
  (is_Some (rag_getThread t g) →
     rag_getThread t (rag_addThread t g) = rag_getThread t g) ∧
  (u ≠ t → rag_getThread u (rag_addThread t g) = rag_getThread u g ∧
           rag_isNewThread u (rag_addThread t g) = rag_isNewThread u g) ∧
  (∀ i th, threads g !! i = Some th →
           threads (rag_addThread t g) !! i = Some th) ∧
  length (threads (rag_addThread t g)) = S (length (threads g)) ∧
  resources (rag_addThread t g) = resources g.
Proof.
  assert (is_Some (rag_getThread t (rag_addThread t g))) as [i Hi].
  { rewrite getThread_addThread. destruct (rag_getThread t g); [done|].
    by rewrite decide_True. }
  split; [apply isNewThread_getThread|]. split.
  { destruct (rag_isNewThread t (rag_addThread t g)) eqn:Hn; [|done].
    apply isNewThread_getThread in Hn. congruence. }
  split.
  { pose proof Hi as (th & Hth & Ht)%scan_threads_Some. by exists i, th. }
  split.
  { intros Hnone. rewrite getThread_addThread, Hnone, decide_True by done.
    split; [done|]. simpl. by rewrite list_lookup_middle. }
  split.
  { intros [k Hk]. by rewrite getThread_addThread, Hk. }
  split.
  { intros Hne.
    assert (rag_getThread u (rag_addThread t g) = rag_getThread u g) as Hget.
    { rewrite getThread_addThread. destruct (rag_getThread u g); [done|].
      by rewrite !decide_False by done. }
    split; [done|].
    destruct (rag_isNewThread u (rag_addThread t g)) eqn:H1,
             (rag_isNewThread u g) eqn:H2; try done.
    - apply isNewThread_getThread in H1. rewrite Hget in H1.
      apply isNewThread_getThread in H1. congruence.
    - apply isNewThread_getThread in H2. rewrite <-Hget in H2.
      apply isNewThread_getThread in H2. congruence. }
  split.
  { intros k th Hk. simpl. by apply lookup_app_l_Some. }
  split; [|done]. simpl. rewrite length_app. simpl. lia.
Qed.

(** X2. After [rag_addResource l] the lookup of [l] finds a node of
    that lock: the new node at the tail, without assignment edge, when
    [l] had none, and otherwise the node it found before, so that a
    second node of a lock is never found.  The lookups of every other
    lock, the nodes that were there and the thread nodes are
    unchanged. *)
Theorem X2_addResource_lookup l l' g :
  (∃ j r, rag_getResource l (rag_addResource l g) = Some j ∧
          resources (rag_addResource l g) !! j = Some r ∧ res_lock r = l) ∧
  (rag_getResource l g = None →
     rag_getResource l (rag_addResource l g) = Some (length (resources g)) ∧
     resources (rag_addResource l g) !! length (resources g) =
       Some (mk_resource None l false) ∧
     rag_isAssigned l (rag_addResource l g) = Some false) ∧
  (is_Some (rag_getResource l g) →
     rag_getResource l (rag_addResource l g) = rag_getResource l g ∧
     rag_isAssigned l (rag_addResource l g) = rag_isAssigned l g) ∧
  (l' ≠ l → rag_getResource l' (rag_addResource l g) = rag_getResource l' g) ∧
  (∀ j r, resources g !! j = Some r →
          resources (rag_addResource l g) !! j = Some r) ∧
  length (resources (rag_addResource l g)) = S (length (resources g)) ∧
  threads (rag_addResource l g) = threads g.
Proof.
  assert (is_Some (rag_getResource l (rag_addResource l g))) as [j Hj].
  { rewrite getResource_addResource. destruct (rag_getResource l g); [done|].
    by rewrite decide_True. }
  split.
  { pose proof Hj as (r & Hr & Hl)%scan_resources_Some. by exists j, r. }
  split.
  { intros Hnone. unfold rag_isAssigned.
    rewrite getResource_addResource, Hnone, decide_True by done. simpl.
    by rewrite list_lookup_middle. }
  split.
  { intros [k Hk]. unfold rag_isAssigned.
    rewrite getResource_addResource, Hk. split; [done|]. simpl.
    pose proof Hk as (r & Hr & _)%scan_resources_Some.
    by rewrite (lookup_app_l_Some _ _ _ _ Hr), Hr. }
  split.
  { intros Hne. rewrite getResource_addResource.
    destruct (rag_getResource l' g); [done|]. by rewrite decide_False. }
  split.
  { intros k r Hk. simpl. by apply lookup_app_l_Some. }
  split; [|done]. simpl. rewrite length_app. simpl. lia.
Qed.

Lemma isAssigned_alter o l l' j g :
  rag_getResource l g = Some j →
  rag_isAssigned l'
    (with_resources (alter (set_assignment o) j (resources g)) g) =
  if decide (l' = l) then Some (bool_decide (o ≠ None)) else rag_isAssigned l' g.
Proof.
  intros Hj. pose proof Hj as (r & Hr & Hl)%scan_resources_Some.
  unfold rag_isAssigned. rewrite getResource_alter by done.
  destruct (decide (l' = l)) as [->|Hne].
  - rewrite Hj. simpl. by rewrite list_lookup_alter_eq, Hr.
  - destruct (rag_getResource l' g) as [k|] eqn:Hk; [|done]. simpl.
    pose proof Hk as (r' & Hr' & Hl')%scan_resources_Some.
    rewrite list_lookup_alter_ne; [done|]. intros ->. congruence.
Qed.

(** X3. [rag_isAssigned] dereferences [NULL] for a lock without
    resource node.  For a registered lock it answers true after
    [rag_setAssignment] exactly when the thread given has a node (for an
    unknown thread id the edge is set to [NULL]), and false after
    [rag_removeAssignment]; the answers for other locks and the thread
    nodes are unchanged.  Removing after setting is the same as
    removing, and removing the edge of an unassigned lock changes
    nothing. *)
Theorem X3_assignment_lookup t l l' g :
  (rag_getResource l g = None → rag_isAssigned l g = None) ∧
  (is_Some (rag_getResource l g) →
     ∃ g1 g2,
       rag_setAssignment t l g = Some g1 ∧
       rag_removeAssignment l g = Some g2 ∧
       rag_isAssigned l g1 = Some (bool_decide (rag_getThread t g ≠ None)) ∧
       rag_isAssigned l g2 = Some false ∧
       (l' ≠ l → rag_isAssigned l' g1 = rag_isAssigned l' g ∧
                 rag_isAssigned l' g2 = rag_isAssigned l' g) ∧
       threads g1 = threads g ∧ threads g2 = threads g ∧
       rag_removeAssignment l g1 = Some g2 ∧
       (rag_isAssigned l g = Some false → g2 = g)).
Proof.
  split.
  { intros Hnone. unfold rag_isAssigned. by rewrite Hnone. }
  intros [j Hj]. pose proof Hj as (r & Hr & Hl)%scan_resources_Some.
  unfold rag_setAssignment, rag_removeAssignment. rewrite Hj. simpl.
  eexists _, _. split; [done|]. split; [done|].
  split. { by rewrite (isAssigned_alter _ l), decide_True. }
  split. { by rewrite (isAssigned_alter _ l), decide_True. }
  split.
  { intros Hne. rewrite !(isAssigned_alter _ l) by done.
    by rewrite !decide_False by done. }
  split; [done|]. split; [done|]. split.
  { rewrite getResource_alter, Hj by done. simpl. by rewrite alter_twice. }
  unfold rag_isAssigned. rewrite Hj. simpl. rewrite Hr. simpl.
  intros [= Ha]. apply bool_decide_eq_false in Ha.
  rewrite (alter_fixed _ _ j r), with_resources_same; [done..|].
  destruct r as [[a|] ? ?]; simpl in *; [by destruct Ha|done].
Qed.

(** X4. [rag_setRequest] and [rag_removeRequest] dereference [NULL] for
    a thread id without node.  For a thread with a node,
    [rag_setRequest] makes the request edge of that node the result of
    the lookup of the lock ([NULL] for a lock without node) and
    [rag_removeRequest] makes it [NULL]; id and marker of the node,
    every other thread node, the resource nodes and the lookups are
    unchanged.  Removing after setting is the same as removing, and
    gives back the graph when the thread had no request edge. *)
Theorem X4_request_edge t u l g :
  (rag_getThread t g = None →
     rag_setRequest t l g = None ∧ rag_removeRequest t g = None) ∧
  (∀ i, rag_getThread t g = Some i →
     ∃ g1 g2 th,
       rag_setRequest t l g = Some g1 ∧ rag_removeRequest t g = Some g2 ∧
       threads g !! i = Some th ∧
       threads g1 !! i =
         Some (mk_thread (rag_getResource l g) t (thr_travelled th)) ∧
       threads g2 !! i = Some (mk_thread None t (thr_travelled th)) ∧
       (∀ k, k ≠ i → threads g1 !! k = threads g !! k ∧
                     threads g2 !! k = threads g !! k) ∧
       resources g1 = resources g ∧ resources g2 = resources g ∧
       rag_getThread u g1 = rag_getThread u g ∧
       rag_removeRequest t g1 = Some g2 ∧
       (request th = None → g2 = g)).
Proof.
  unfold rag_setRequest, rag_removeRequest. split.
  { intros Hnone. by rewrite Hnone. }
  intros i Hi. pose proof Hi as (th & Hth & Ht)%scan_threads_Some.
  rewrite Hi. simpl. eexists _, _, th. split; [done|]. split; [done|].
  split; [done|]. simpl. rewrite !list_lookup_alter_eq, Hth. simpl.
  unfold set_request. rewrite Ht.
  split; [done|]. split; [done|]. split.
  { intros k Hk. by rewrite !list_lookup_alter_ne. }
  split; [done|]. split; [done|]. split.
  { by apply getThread_alter. }
  split.
  { rewrite getThread_alter, Hi by done. simpl. by rewrite alter_twice. }
  intros Hreq. rewrite (alter_fixed _ _ i th), with_threads_same; [done..|].
  destruct th; simpl in *. by subst.
Qed.

(** * Further properties of the cycle detector *)



Lemma check_of_revisits t g i :
  wf g → all_clear g → rag_getThread t g = Some i →
  revisits g (ThreadNode i) → rag_checkForCycles t g = Some (true, g).
Proof.
  intros Hwf Hclear Hi Hrev.
  destruct (checkForCycles_total t g Hwf) as [[b g'] H].
  pose proof (checkForCycles_graph _ _ _ _ Hclear H) as Hg. subst g'.
  destruct b; [done|]. exfalso.
  unfold rag_checkForCycles in H. rewrite Hi in H.
  destruct (rag_depthFirstSearch _ _ _) as [[b1 g1]|] eqn:Hdfs; [|done].
  simpl in H. injection H as Hb _. subst b1. apply dfs_sound in Hdfs.
  by apply (revisits_not_dead_end g (ThreadNode i)).
Qed.

Lemma check_of_dead_end t g i :
  wf g → all_clear g → rag_getThread t g = Some i →
  dead_end g (ThreadNode i) → rag_checkForCycles t g = Some (false, g).
Proof.
  intros Hwf Hclear Hi Hde.
  destruct (checkForCycles_total t g Hwf) as [[b g'] H].
  pose proof (checkForCycles_graph _ _ _ _ Hclear H) as Hg. subst g'.
  destruct b; [|done]. exfalso.
  unfold rag_checkForCycles in H. rewrite Hi in H.
  destruct (rag_depthFirstSearch _ _ _) as [[b1 g1]|] eqn:Hdfs; [|done].
  simpl in H. injection H as Hb _. subst b1. apply dfs_sound in Hdfs.
  destruct Hdfs as (n & y & Hn & [Hm|(m & Hlt & Hm)]).
  - by destruct (all_clear_unmarked g y Hclear).
  - apply (revisits_not_dead_end g (ThreadNode i)); [|done]. by exists m, n, y.
Qed.

Lemma check_true_revisits t g g' i :
  all_clear g → rag_getThread t g = Some i →
  rag_checkForCycles t g = Some (true, g') → revisits g (ThreadNode i).
Proof.
  intros Hclear Hi H. unfold rag_checkForCycles in H. rewrite Hi in H.
  destruct (rag_depthFirstSearch _ _ _) as [[b1 g1]|] eqn:Hdfs; [|done].
  simpl in H. simplify_eq. apply dfs_sound in Hdfs.
  destruct Hdfs as (n & y & Hn & [Hm|(m & Hlt & Hm)]).
  - by destruct (all_clear_unmarked g y Hclear).
  - by exists m, n, y.
Qed.

(** * Further properties of the lock protocol *)

Lemma run_Lock t l acts s :
  is_outside (pc_of t s) = true →
  run (Lock t l :: acts) s = run acts (set_pc t (AtIsNewThread l) s).
Proof. intros H. simpl. by rewrite H. Qed.

Lemma run_Step t acts s s1 :
  lock_step t s = Next s1 → run (Step t :: acts) s = run acts s1.
Proof. intros H. simpl. by rewrite H. Qed.

Lemma run_Unlock l acts s s1 :
  unlock l s = Some s1 → run (Unlock l :: acts) s = run acts s1.
Proof. intros H. simpl. by rewrite H. Qed.

Lemma outside_no_request t s i th :
  inv s → is_outside (pc_of t s) = true →
  threads (graph s) !! i = Some th → tid th = t → request th = None.
Proof.
  intros Hinv Hout Hth Ht. destruct (request th) as [j|] eqn:Hreq; [|done].
  pose proof (inv_request _ Hinv i th Hth) as Hr.
  rewrite Hreq, Ht in Hr. destruct (pc_of t s); try done. by discriminate Hr.
Qed.

(** From the call to line 100: the thread gets its node if it has
    none. *)
Lemma enter_lock t l s :
  inv s → is_outside (pc_of t s) = true →
  ∃ s1,
    run (Lock t l ::
         replicate (if rag_isNewThread t (graph s) then 2 else 1) (Step t)) s
      = Some s1 ∧
    pc_of t s1 = AtSetRequest l ∧
    graph s1 = (if rag_isNewThread t (graph s)
                then rag_addThread t (graph s) else graph s) ∧
    mutexes s1 = mutexes s.
Proof.
  intros Hinv Hout. rewrite run_Lock by done.
  set (s0 := set_pc t (AtIsNewThread l) s).
  assert (pc_of t s0 = AtIsNewThread l) as Hpc0.
  { unfold s0. by rewrite pc_of_set_pc, decide_True. }
  destruct (rag_isNewThread t (graph s)) eqn:Hnew.
  - set (s1 := set_pc t (AtAddThread l) s0).
    assert (lock_step t s0 = Next s1) as H0.
    { unfold lock_step. rewrite Hpc0.
      change (graph s0) with (graph s). by rewrite Hnew. }
    assert (pc_of t s1 = AtAddThread l) as Hpc1.
    { unfold s1. by rewrite pc_of_set_pc, decide_True. }
    eexists. simpl replicate. rewrite (run_Step _ _ _ _ H0).
    erewrite (run_Step t [] s1); [|unfold lock_step; by rewrite Hpc1].
    split; [done|]. by rewrite pc_of_set_pc, decide_True.
  - eexists. simpl replicate.
    erewrite (run_Step t [] s0);
      [|unfold lock_step; rewrite Hpc0; change (graph s0) with (graph s);
        by rewrite Hnew].
    split; [done|]. by rewrite pc_of_set_pc, decide_True.
Qed.

(** Line 100, from a state in which the thread has its node. *)
Lemma request_step t l s i :
  pc_of t s = AtSetRequest l → rag_getThread t (graph s) = Some i →
  ∃ s2,
    lock_step t s = Next s2 ∧ pc_of t s2 = AtCheckForCycles l ∧
    graph s2 = with_threads
                 (alter (set_request (rag_getResource l (graph s))) i
                    (threads (graph s))) (graph s) ∧
    mutexes s2 = mutexes s.
Proof.
  intros Hpc Hi. eexists. unfold lock_step, rag_setRequest. rewrite Hpc, Hi.
  simpl. split; [done|]. by rewrite pc_of_set_pc, decide_True.
Qed.

(** The rejection branch, lines 111-112. *)
Lemma reject_steps t l s i :
  pc_of t s = AtCheckForCycles l → rag_getThread t (graph s) = Some i →
  rag_checkForCycles t (graph s) = Some (true, graph s) →
  ∃ s',
    run [Step t; Step t] s = Some s' ∧ pc_of t s' = Outside (Some 0%Z) ∧
    graph s' = with_threads (alter (set_request None) i (threads (graph s)))
                 (graph s) ∧
    mutexes s' = mutexes s.
Proof.
  intros Hpc Hi Hc.
  set (s1 := set_pc t (AtRejectRemoveRequest l) (with_graph (graph s) s)).
  assert (lock_step t s = Next s1) as H1.
  { unfold lock_step. by rewrite Hpc, Hc. }
  assert (pc_of t s1 = AtRejectRemoveRequest l) as Hpc1.
  { unfold s1. by rewrite pc_of_set_pc, decide_True. }
  eexists. rewrite (run_Step _ _ _ _ H1).
  erewrite (run_Step t [] s1);
    [|unfold lock_step, rag_removeRequest; rewrite Hpc1;
      change (graph s1) with (graph s); by rewrite Hi].
  split; [done|]. by rewrite pc_of_set_pc, decide_True.
Qed.

(** The granting branch, lines 105-116, when the mutex is free. *)
Lemma grant_steps t l s i j :
  pc_of t s = AtCheckForCycles l → rag_getThread t (graph s) = Some i →
  rag_getResource l (graph s) = Some j →
  rag_checkForCycles t (graph s) = Some (false, graph s) →
  mutexes s !! l = Some false →
  ∃ s',
    run [Step t; Step t; Step t; Step t] s = Some s' ∧
    pc_of t s' = Outside (Some 1%Z) ∧
    graph s' =
      mk_rag (alter (set_request None) i (threads (graph s)))
             (alter (set_assignment (Some i)) j (resources (graph s))) ∧
    mutexes s' = <[l := true]> (mutexes s).
Proof.
  intros Hpc Hi Hj Hc Hm.
  set (s1 := set_pc t (AtSetAssignment l) (with_graph (graph s) s)).
  set (g2 := with_resources (alter (set_assignment (Some i)) j
                               (resources (graph s))) (graph s)).
  set (s2 := set_pc t (AtMutexLock l) (with_graph g2 s1)).
  set (s3 := set_pc t (AtGrantRemoveRequest l) (with_mutex l true s2)).
  assert (lock_step t s = Next s1) as H1.
  { unfold lock_step. by rewrite Hpc, Hc. }
  assert (lock_step t s1 = Next s2) as H2.
  { unfold lock_step, rag_setAssignment, s1.
    rewrite pc_of_set_pc, decide_True by done. simpl. by rewrite Hj, Hi. }
  assert (lock_step t s2 = Next s3) as H3.
  { unfold lock_step, s2. rewrite pc_of_set_pc, decide_True by done.
    simpl. by rewrite Hm. }
  eexists. rewrite (run_Step _ _ _ _ H1), (run_Step _ _ _ _ H2),
    (run_Step _ _ _ _ H3).
  erewrite (run_Step t [] s3);
    [|unfold lock_step, rag_removeRequest, s3;
      rewrite pc_of_set_pc, decide_True by done; simpl;
      change (rag_getThread t g2) with (rag_getThread t (graph s));
      by rewrite Hi].
  split; [done|]. by rewrite pc_of_set_pc, decide_True.
Qed.

Lemma isNewThread_false t g i :
  rag_getThread t g = Some i → rag_isNewThread t g = false.
Proof.
  intros Hi. destruct (rag_isNewThread t g) eqn:Hn; [|done].
  apply isNewThread_getThread in Hn. congruence.
Qed.

(** X6. A thread that calls [lock] on a lock whose assignment edge
    points to its own node is rejected: the call returns 0 after four
    statements, without touching a mutex, and leaves the graph exactly
    as it found it. *)
Theorem X6_relock_rejected acts s t l i j r :
  run acts init_state = Some s →
  is_outside (pc_of t s) = true →
  rag_getThread t (graph s) = Some i →
  rag_getResource l (graph s) = Some j →
  resources (graph s) !! j = Some r → assignment r = Some i →
  ∃ s', run [Lock t l; Step t; Step t; Step t; Step t] s = Some s' ∧
        pc_of t s' = Outside (Some 0%Z) ∧
        graph s' = graph s ∧ mutexes s' = mutexes s.
Proof.
  intros Hrun Hout Hi Hj Hr Ha.
  pose proof (inv_run acts _ _ inv_init Hrun) as Hinv.
  pose proof Hi as (th & Hth & Ht)%scan_threads_Some.
  pose proof (outside_no_request t s i th Hinv Hout Hth Ht) as Hreq.
  destruct (enter_lock t l s Hinv Hout) as (s1 & Hrun1 & Hpc1 & Hg1 & Hm1).
  rewrite (isNewThread_false _ _ _ Hi) in Hrun1, Hg1.
  destruct (request_step t l s1 i Hpc1) as (s2 & Hst2 & Hpc2 & Hg2 & Hm2);
    [by rewrite Hg1|].
  rewrite Hg1, Hj in Hg2.
  assert (rag_getThread t (graph s2) = Some i) as Hi2.
  { rewrite Hg2, getThread_alter; done. }
  assert (rag_checkForCycles t (graph s2) = Some (true, graph s2)) as Hc.
  { apply (check_of_revisits t _ i); [| |done|].
    - rewrite Hg2. apply wf_alter_request; [apply Hinv|].
      intros ? [= <-]. by eapply lookup_lt_Some.
    - rewrite Hg2. apply all_clear_alter_threads; [done|apply Hinv].
    - exists 0, 2, (ThreadNode i). split; [lia|]. split; [done|].
      rewrite follow_SS, Hg2. simpl.
      rewrite list_lookup_alter_eq, Hth. simpl. rewrite Hr. simpl.
      by rewrite Ha. }
  destruct (reject_steps t l s2 i Hpc2 Hi2 Hc) as (s' & Hrun' & Hpc' & Hg' & Hm').
  exists s'. split.
  { change [Lock t l; Step t; Step t; Step t; Step t]
      with ([Lock t l; Step t] ++ Step t :: [Step t; Step t]).
    rewrite run_app. simpl replicate in Hrun1. rewrite Hrun1.
    change (run (Step t :: [Step t; Step t]) s1 = Some s').
    by rewrite (run_Step _ _ _ _ Hst2). }
  split; [done|]. split; [|congruence].
  rewrite Hg', Hg2. unfold with_threads at 1. simpl.
  rewrite alter_twice by done.
  rewrite (alter_fixed _ _ i th); [by destruct (graph s)|done|].
  destruct th; simpl in *. by subst.
Qed.

Lemma X6_relock_rejected_witness :
  run sched_granted init_state = Some (final sched_granted) ∧
  is_outside (pc_of 1 (final sched_granted)) = true ∧
  rag_getThread 1 (graph (final sched_granted)) = Some 0 ∧
  rag_getResource 100 (graph (final sched_granted)) = Some 0 ∧
  resources (graph (final sched_granted)) !! 0 =
    Some (mk_resource (Some 0) 100 false) ∧
  (∃ s', run [Lock 1 100; Step 1; Step 1; Step 1; Step 1]
           (final sched_granted) = Some s' ∧
         pc_of 1 s' = Outside (Some 0%Z) ∧
         graph s' = graph (final sched_granted) ∧
         mutexes s' = mutexes (final sched_granted)).
Proof.
  repeat (split; [vm_compute; reflexivity|]).
  apply (X6_relock_rejected sched_granted (final sched_granted) 1 100 0 0
           (mk_resource (Some 0) 100 false)); vm_compute; reflexivity.
Defined.

(** A whole call of [lock] on a registered lock that the graph shows
    unassigned and whose mutex is free. *)
Lemma acquire_free t l s j r :
  inv s → is_outside (pc_of t s) = true →
  rag_getResource l (graph s) = Some j →
  resources (graph s) !! j = Some r → assignment r = None →
  mutexes s !! l = Some false →
  ∃ n i s',
    run (Lock t l :: replicate n (Step t)) s = Some s' ∧
    pc_of t s' = Outside (Some 1%Z) ∧
    rag_getThread t (graph s') = Some i ∧
    threads (graph s') =
      threads (if rag_isNewThread t (graph s)
               then rag_addThread t (graph s) else graph s) ∧
    resources (graph s') =
      alter (set_assignment (Some i)) j (resources (graph s)) ∧
    mutexes s' = <[l := true]> (mutexes s).
Proof.
  intros Hinv Hout Hj Hr Ha Hm.
  destruct (enter_lock t l s Hinv Hout) as (s1 & Hrun1 & Hpc1 & Hg1 & Hm1).
  pose proof (inv_run _ _ _ Hinv Hrun1) as Hinv1.
  destruct (inv_seen _ Hinv1 t) as [i Hi]; [by rewrite Hpc1|].
  pose proof Hi as (th & Hth & Ht)%scan_threads_Some.
  assert (request th = None) as Hreq.
  { destruct (request th) as [k|] eqn:Hreq; [|done].
    pose proof (inv_request _ Hinv1 i th Hth) as Hq.
    rewrite Hreq, Ht, Hpc1 in Hq. by discriminate Hq. }
  assert (resources (graph s1) = resources (graph s)) as Hres1.
  { rewrite Hg1. by destruct (rag_isNewThread t (graph s)). }
  assert (rag_getResource l (graph s1) = Some j) as Hj1.
  { unfold rag_getResource. by rewrite Hres1. }
  destruct (request_step t l s1 i Hpc1 Hi) as (s2 & Hst2 & Hpc2 & Hg2 & Hm2).
  rewrite Hj1 in Hg2.
  assert (rag_getThread t (graph s2) = Some i) as Hi2.
  { rewrite Hg2, getThread_alter; done. }
  assert (rag_getResource l (graph s2) = Some j) as Hj2.
  { by rewrite Hg2. }
  assert (rag_checkForCycles t (graph s2) = Some (false, graph s2)) as Hc.
  { apply (check_of_dead_end t _ i); [| |done|].
    - rewrite Hg2. apply wf_alter_request; [apply Hinv1|].
      intros ? [= <-]. by apply getResource_lt in Hj1.
    - rewrite Hg2. apply all_clear_alter_threads; [done|apply Hinv1].
    - exists 1, (ResourceNode j). rewrite follow_1, Hg2. simpl.
      rewrite list_lookup_alter_eq, Hth, Hres1. simpl. eauto. }
  destruct (grant_steps t l s2 i j Hpc2 Hi2 Hj2 Hc) as (s' & Hrun' & Hpc' & Hg' & Hm');
    [congruence|].
  exists ((if rag_isNewThread t (graph s) then 2 else 1) + 5), i, s'.
  split.
  { rewrite replicate_add.
    change (run ((Lock t l :: replicate
                    (if rag_isNewThread t (graph s) then 2 else 1) (Step t))
                 ++ Step t :: [Step t; Step t; Step t; Step t]) s = Some s').
    rewrite run_app, Hrun1.
    change (run (Step t :: [Step t; Step t; Step t; Step t]) s1 = Some s').
    by rewrite (run_Step _ _ _ _ Hst2). }
  split; [done|]. rewrite Hg', Hg2. simpl.
  rewrite alter_twice by done. rewrite (alter_fixed _ _ i th); [|done|].
  - split; [done|]. split; [by rewrite Hg1|].
    split; [by rewrite Hres1|]. by rewrite Hm', Hm2, Hm1.
  - destruct th; simpl in *. by subst.
Qed.

(** X7. A thread outside [lock] that calls it on a registered lock
    which the graph shows unassigned and whose mutex is free is granted
    the lock: the call returns 1, the mutex is locked, the assignment
    edge of the lock points to the node of the thread, and the thread
    has no request edge left.  The other resource nodes, the other
    mutexes and the thread nodes that were there are unchanged. *)
Theorem X7_free_lock_granted acts s t l j r :
  run acts init_state = Some s →
  is_outside (pc_of t s) = true →
  rag_getResource l (graph s) = Some j →
  resources (graph s) !! j = Some r → assignment r = None →
  mutexes s !! l = Some false →
  ∃ n i s',
    run (Lock t l :: replicate n (Step t)) s = Some s' ∧
    pc_of t s' = Outside (Some 1%Z) ∧
    mutexes s' !! l = Some true ∧
    (∀ l', l' ≠ l → mutexes s' !! l' = mutexes s !! l') ∧
    rag_getThread t (graph s') = Some i ∧
    resources (graph s') !! j =
      Some (mk_resource (Some i) l (res_travelled r)) ∧
    (∀ k, k ≠ j → resources (graph s') !! k = resources (graph s) !! k) ∧
    rag_isAssigned l (graph s') = Some true ∧
    (∀ k th, threads (graph s') !! k = Some th → tid th = t →
             request th = None) ∧
    (∀ k th, threads (graph s) !! k = Some th →
             threads (graph s') !! k = Some th).
Proof.
  intros Hrun Hout Hj Hr Ha Hm.
  pose proof (inv_run acts _ _ inv_init Hrun) as Hinv.
  destruct (acquire_free t l s j r Hinv Hout Hj Hr Ha Hm)
    as (n & i & s' & Hrun' & Hpc' & Hi' & Hts' & Hrs' & Hm').
  pose proof (inv_run _ _ _ Hinv Hrun') as Hinv'.
  pose proof Hj as (r0 & Hr0 & Hl)%scan_resources_Some.
  exists n, i, s'. split; [done|]. split; [done|].
  split. { by rewrite Hm', lookup_insert_eq. }
  split. { intros l' Hl'. by rewrite Hm', lookup_insert_ne. }
  split; [done|]. split.
  { rewrite Hrs', list_lookup_alter_eq, Hr. simpl. unfold set_assignment.
    by simplify_eq. }
  split. { intros k Hk. by rewrite Hrs', list_lookup_alter_ne. }
  split.
  { unfold rag_isAssigned, rag_getResource. rewrite Hrs'.
    rewrite (scan_resources_ext l _ (resources (graph s)))
      by (by apply locks_alter).
    fold (rag_getResource l (graph s)). rewrite Hj. simpl.
    by rewrite list_lookup_alter_eq, Hr. }
  split.
  { intros k th Hk Ht. apply (outside_no_request t s' k th); try done.
    by rewrite Hpc'. }
  intros k th Hk. rewrite Hts'.
  destruct (rag_isNewThread t (graph s)); [|done].
  simpl. by apply lookup_app_l_Some.
Qed.

(** X8. Such a call of [lock] followed by [unlock] of the same lock
    gives back every resource node and every mutex as they were before
    the call; when the thread already had its node, the whole graph is
    as before. *)
Theorem X8_lock_unlock_round_trip acts s t l j r :
  run acts init_state = Some s →
  is_outside (pc_of t s) = true →
  rag_getResource l (graph s) = Some j →
  resources (graph s) !! j = Some r → assignment r = None →
  mutexes s !! l = Some false →
  ∃ n s' s'',
    run (Lock t l :: replicate n (Step t)) s = Some s' ∧
    pc_of t s' = Outside (Some 1%Z) ∧
    unlock l s' = Some s'' ∧
    resources (graph s'') = resources (graph s) ∧
    mutexes s'' = mutexes s ∧
    (is_Some (rag_getThread t (graph s)) → graph s'' = graph s).
Proof.
  intros Hrun Hout Hj Hr Ha Hm.
  pose proof (inv_run acts _ _ inv_init Hrun) as Hinv.
  destruct (acquire_free t l s j r Hinv Hout Hj Hr Ha Hm)
    as (n & i & s' & Hrun' & Hpc' & Hi' & Hts' & Hrs' & Hm').
  assert (rag_getResource l (graph s') = Some j) as Hj'.
  { unfold rag_getResource. rewrite Hrs'.
    rewrite (scan_resources_ext l _ (resources (graph s)))
      by (by apply locks_alter). done. }
  assert (alter (set_assignment None) j (resources (graph s')) =
          resources (graph s)) as Hback.
  { rewrite Hrs', alter_twice by done. apply (alter_fixed _ _ j r); [done|].
    destruct r; simpl in *. by subst. }
  exists n, s'. eexists. split; [done|]. split; [done|].
  unfold unlock, rag_removeAssignment. rewrite Hj'. simpl.
  split; [done|]. simpl. split; [done|]. split.
  { rewrite Hm', insert_insert_eq. by apply insert_id. }
  intros [k Hk]. rewrite Hback.
  rewrite (isNewThread_false _ _ _ Hk) in Hts'.
  unfold with_resources. rewrite Hts'. by destruct (graph s).
Qed.

Lemma X7_free_lock_granted_witness :
  run sched_init init_state = Some (final sched_init) ∧
  is_outside (pc_of 1 (final sched_init)) = true ∧
  rag_getResource 100 (graph (final sched_init)) = Some 0 ∧
  resources (graph (final sched_init)) !! 0 = Some fresh_resource ∧
  assignment fresh_resource = None ∧
  mutexes (final sched_init) !! 100%Z = Some false ∧
  (∃ n i s',
    run (Lock 1 100 :: replicate n (Step 1)) (final sched_init) = Some s' ∧
    pc_of 1 s' = Outside (Some 1%Z) ∧
    mutexes s' !! 100%Z = Some true ∧
    (∀ l', l' ≠ 100%Z → mutexes s' !! l' = mutexes (final sched_init) !! l') ∧
    rag_getThread 1 (graph s') = Some i ∧
    resources (graph s') !! 0 =
      Some (mk_resource (Some i) 100 (res_travelled fresh_resource)) ∧
    (∀ k, k ≠ 0 → resources (graph s') !! k =
                  resources (graph (final sched_init)) !! k) ∧
    rag_isAssigned 100 (graph s') = Some true ∧
    (∀ k th, threads (graph s') !! k = Some th → tid th = 1%Z →
             request th = None) ∧
    (∀ k th, threads (graph (final sched_init)) !! k = Some th →
             threads (graph s') !! k = Some th)).
Proof.
  repeat (split; [vm_compute; reflexivity|]).
  apply (X7_free_lock_granted sched_init (final sched_init) 1 100 0
           fresh_resource); vm_compute; reflexivity.
Defined.

Lemma X8_lock_unlock_round_trip_witness :
  run sched_init init_state = Some (final sched_init) ∧
  is_outside (pc_of 1 (final sched_init)) = true ∧
  rag_getResource 100 (graph (final sched_init)) = Some 0 ∧
  resources (graph (final sched_init)) !! 0 = Some fresh_resource ∧
  assignment fresh_resource = None ∧
  mutexes (final sched_init) !! 100%Z = Some false ∧
  (∃ n s' s'',
    run (Lock 1 100 :: replicate n (Step 1)) (final sched_init) = Some s' ∧
    pc_of 1 s' = Outside (Some 1%Z) ∧
    unlock 100 s' = Some s'' ∧
    resources (graph s'') = resources (graph (final sched_init)) ∧
    mutexes s'' = mutexes (final sched_init) ∧
    (is_Some (rag_getThread 1 (graph (final sched_init))) →
     graph s'' = graph (final sched_init))).
Proof.
  repeat (split; [vm_compute; reflexivity|]).
  apply (X8_lock_unlock_round_trip sched_init (final sched_init) 1 100 0
           fresh_resource); vm_compute; reflexivity.
Defined.

(** X9. When a lock is released while a thread stands at the wait of
    line 107 for it, the thread takes the mutex and its call returns 1,
    but the graph then records no holder for the lock: [unlock] has
    cleared the assignment edge that the waiting thread had written at
    line 106. *)
Theorem X9_waiter_not_recorded acts s t l :
  run acts init_state = Some s →
  pc_of t s = AtMutexLock l →
  ∃ s', run [Unlock l; Step t; Step t] s = Some s' ∧
        pc_of t s' = Outside (Some 1%Z) ∧
        mutexes s' !! l = Some true ∧
        rag_isAssigned l (graph s') = Some false.
Proof.
  intros Hrun Hpc. pose proof (inv_run acts _ _ inv_init Hrun) as Hinv.
  destruct (inv_waiting _ Hinv t l Hpc) as [j Hj].
  destruct (inv_seen _ Hinv t) as [i Hi]; [by rewrite Hpc|].
  pose proof Hj as (r & Hr & Hl)%scan_resources_Some.
  set (g1 := with_resources (alter (set_assignment None) j
                               (resources (graph s))) (graph s)).
  set (s1 := with_mutex l false (with_graph g1 s)).
  set (s2 := set_pc t (AtGrantRemoveRequest l) (with_mutex l true s1)).
  assert (unlock l s = Some s1) as H1.
  { unfold unlock, rag_removeAssignment. by rewrite Hj. }
  assert (lock_step t s1 = Next s2) as H2.
  { unfold lock_step. change (pc_of t s1) with (pc_of t s). rewrite Hpc.
    simpl. by rewrite lookup_insert_eq. }
  set (g3 := with_threads (alter (set_request None) i (threads g1)) g1).
  set (s3 := set_pc t (Outside (Some 1%Z)) (with_graph g3 s2)).
  assert (lock_step t s2 = Next s3) as H3.
  { unfold lock_step, rag_removeRequest, s2.
    rewrite pc_of_set_pc, decide_True by done. simpl.
    change (rag_getThread t g1) with (rag_getThread t (graph s)).
    by rewrite Hi. }
  exists s3. split.
  { by rewrite (run_Unlock _ _ _ _ H1), (run_Step _ _ _ _ H2),
      (run_Step _ _ _ _ H3). }
  split; [unfold s3; by rewrite pc_of_set_pc, decide_True|]. split.
  { simpl. by rewrite lookup_insert_eq. }
  change (rag_isAssigned l g3 = Some false).
  change (rag_isAssigned l g3) with (rag_isAssigned l g1).
  unfold g1. by rewrite (isAssigned_alter _ l), decide_True.
Qed.

Lemma X9_waiter_not_recorded_witness :
  run sched_blocked init_state = Some (final sched_blocked) ∧
  pc_of 2 (final sched_blocked) = AtMutexLock 100 ∧
  (∃ s', run [Unlock 100; Step 2; Step 2] (final sched_blocked) = Some s' ∧
         pc_of 2 s' = Outside (Some 1%Z) ∧
         mutexes s' !! 100%Z = Some true ∧
         rag_isAssigned 100 (graph s') = Some false).
Proof.
  repeat (split; [vm_compute; reflexivity|]).
  apply (X9_waiter_not_recorded sched_blocked (final sched_blocked) 2 100);
    vm_compute; reflexivity.
Defined.

Lemma revisits_cycle g x m n y :
  m < n → follow m g x = Some y → follow n g x = Some y →
  follow (n - m) g y = Some y.
Proof.
  intros Hlt Hm Hn. replace n with (m + (n - m)) in Hn by lia.
  by rewrite follow_plus, Hm in Hn.
Qed.

(** X10. While no other thread is at its cycle check, in its rejection
    branch or between lines 106 and 115, a thread is rejected only if
    the graph shows it as the holder of some lock: a cycle found then
    goes through the node of the thread itself. *)
Theorem X10_rejection_needs_holder acts s t l g' :
  run acts init_state = Some s →
  pc_of t s = AtCheckForCycles l →
  rag_checkForCycles t (graph s) = Some (true, g') →
  (∀ u, u ≠ t → in_cycle_phase (pc_of u s) = false) →
  ∃ i j r n,
    rag_getThread t (graph s) = Some i ∧
    resources (graph s) !! j = Some r ∧ assignment r = Some i ∧
    0 < n ∧ follow n (graph s) (ThreadNode i) = Some (ThreadNode i).
Proof.
  intros Hrun Hpc Hc Hquiet.
  pose proof (inv_run acts _ _ inv_init Hrun) as Hinv.
  pose proof (guard_run acts _ _ inv_init guard_init Hrun) as Hguard.
  destruct (inv_seen _ Hinv t) as [i Hi]; [by rewrite Hpc|].
  destruct (check_true_revisits t _ _ i (inv_clear _ Hinv) Hi Hc)
    as (m & n & y & Hlt & Hm & Hn).
  pose proof (revisits_cycle _ _ _ _ _ Hlt Hm Hn) as Hy.
  destruct (Hguard y (n - m)) as (m' & i' & th & _ & Hf & Hth & Hin);
    [lia|done|].
  assert (tid th = t) as Ht.
  { destruct (decide (tid th = t)) as [|Hne]; [done|].
    by rewrite (Hquiet _ Hne) in Hin. }
  assert (i' = i) as -> by (by eapply getThread_unique; [apply Hinv|..]).
  pose proof (cycle_shift _ _ _ _ _ Hf Hy) as Hcyc.
  destruct (n - m) as [|k] eqn:Hk; [lia|].
  pose proof Hcyc as Hlast. rewrite follow_S in Hlast.
  destruct (follow k (graph s) (ThreadNode i)) as [[i0|j]|]; simpl in Hlast;
    try done.
  - destruct (threads (graph s) !! i0) as [th'|]; simpl in Hlast; [|done].
    by destruct (request th').
  - destruct (resources (graph s) !! j) as [r|] eqn:Hr; simpl in Hlast;
      [|done].
    destruct (assignment r) as [a|] eqn:Ha; simplify_eq/=.
    exists i, j, r, (S k). repeat split; try done. lia.
Qed.

Lemma sched_relock_quiet u :
  u ≠ 1%Z → in_cycle_phase (pc_of u (final sched_relock)) = false.
Proof.
  intros Hne. unfold pc_of.
  assert (pcs (final sched_relock) = <[1%Z := AtCheckForCycles 100]> ∅) as ->
    by (vm_compute; reflexivity).
  by rewrite lookup_insert_ne, lookup_empty.
Qed.

Lemma X10_rejection_needs_holder_witness :
  run sched_relock init_state = Some (final sched_relock) ∧
  pc_of 1 (final sched_relock) = AtCheckForCycles 100 ∧
  rag_checkForCycles 1 (graph (final sched_relock)) =
    Some (true, graph (final sched_relock)) ∧
  (∀ u, u ≠ 1%Z → in_cycle_phase (pc_of u (final sched_relock)) = false) ∧
  (∃ i j r n,
    rag_getThread 1 (graph (final sched_relock)) = Some i ∧
    resources (graph (final sched_relock)) !! j = Some r ∧
    assignment r = Some i ∧
    0 < n ∧
    follow n (graph (final sched_relock)) (ThreadNode i) = Some (ThreadNode i)).
Proof.
  repeat (split; [vm_compute; reflexivity|]).
  split; [apply sched_relock_quiet|].
  apply (X10_rejection_needs_holder sched_relock (final sched_relock) 1 100
           (graph (final sched_relock)));
    [vm_compute; reflexivity..|apply sched_relock_quiet].
Defined.



(** X12. In every reachable state a thread node carries a request edge
    only while its thread is inside [lock], after line 100 and before
    the request is cleared at line 111 or 115; the node of a thread
    that is outside [lock] has none. *)
Theorem X12_request_only_inside_lock acts s :
  run acts init_state = Some s →
  (∀ i th, threads (graph s) !! i = Some th → is_Some (request th) →
           requesting (pc_of (tid th) s) = true) ∧
  (∀ t i, is_outside (pc_of t s) = true →
          rag_getThread t (graph s) = Some i →
          request <$> threads (graph s) !! i = Some None).
Proof.
  intros Hrun. pose proof (inv_run acts _ _ inv_init Hrun) as Hinv.
  split; [apply Hinv|]. intros t i Hout Hi.
  pose proof Hi as (th & Hth & Ht)%scan_threads_Some.
  rewrite Hth. simpl. f_equal. by eapply outside_no_request.
Qed.

Lemma X12_request_only_inside_lock_witness :
  run sched_crossed init_state = Some (final sched_crossed) ∧
  ((∀ i th, threads (graph (final sched_crossed)) !! i = Some th →
            is_Some (request th) →
            requesting (pc_of (tid th) (final sched_crossed)) = true) ∧
   (∀ t i, is_outside (pc_of t (final sched_crossed)) = true →
           rag_getThread t (graph (final sched_crossed)) = Some i →
           request <$> threads (graph (final sched_crossed)) !! i = Some None)).
Proof.
  split; [vm_compute; reflexivity|].
  apply (X12_request_only_inside_lock sched_crossed (final sched_crossed)).
  vm_compute. reflexivity.
Defined.

(** X13. [init_lock] on a lock that already has a resource node
    appends a node that no lookup finds: every lookup and every answer
    of [rag_isAssigned] is as before, also for that lock, so that a
    holder stays recorded; but the mutex of the lock is initialised
    again and is unlocked afterwards.  The thread nodes and the control
    points are unchanged. *)
Theorem X13_init_lock_again l l' s :
  is_Some (rag_getResource l (graph s)) →
  rag_getResource l' (graph (init_lock l s)) = rag_getResource l' (graph s) ∧
  rag_isAssigned l' (graph (init_lock l s)) = rag_isAssigned l' (graph s) ∧
  mutexes (init_lock l s) !! l = Some false ∧
  nodes_of l (graph (init_lock l s)) = S (nodes_of l (graph s)) ∧
  threads (graph (init_lock l s)) = threads (graph s) ∧
  pcs (init_lock l s) = pcs s.
Proof.
  intros [j Hj].
  assert (graph (init_lock l s) = rag_addResource l (graph s)) as Hg.
  { unfold init_lock. by destruct (firstRun s). }
  assert (rag_getResource l' (rag_addResource l (graph s)) =
          rag_getResource l' (graph s)) as Hget.
  { rewrite getResource_addResource.
    destruct (rag_getResource l' (graph s)) eqn:Hl'; [done|].
    rewrite decide_False; [done|]. intros ->. congruence. }
  rewrite Hg. split; [done|]. split.
  { unfold rag_isAssigned. rewrite Hget.
    destruct (rag_getResource l' (graph s)) as [k|] eqn:Hk; [|done]. simpl.
    pose proof Hk as (r & Hr & _)%scan_resources_Some.
    by rewrite (lookup_app_l_Some _ _ _ _ Hr), Hr. }
  split.
  { unfold init_lock. destruct (firstRun s); simpl;
      by rewrite lookup_insert_eq. }
  split.
  { rewrite nodes_of_addResource, bool_decide_eq_true_2 by done. lia. }
  split; [done|]. unfold init_lock. by destruct (firstRun s).
Qed.

Lemma X13_init_lock_again_witness :
  is_Some (rag_getResource 100 (graph (final sched_granted))) ∧
  (rag_getResource 100 (graph (init_lock 100 (final sched_granted))) =
     rag_getResource 100 (graph (final sched_granted)) ∧
   rag_isAssigned 100 (graph (init_lock 100 (final sched_granted))) =
     rag_isAssigned 100 (graph (final sched_granted)) ∧
   mutexes (init_lock 100 (final sched_granted)) !! 100%Z = Some false ∧
   nodes_of 100 (graph (init_lock 100 (final sched_granted))) =
     S (nodes_of 100 (graph (final sched_granted))) ∧
   threads (graph (init_lock 100 (final sched_granted))) =
     threads (graph (final sched_granted)) ∧
   pcs (init_lock 100 (final sched_granted)) = pcs (final sched_granted)).
Proof.
  split; [vm_compute; eexists; reflexivity|].
  apply (X13_init_lock_again 100 100 (final sched_granted)).
  vm_compute. eexists. reflexivity.
Defined.

(** * Further properties of the admission scheme *)

Lemma loc_of_goto u t p m x r s :
  Admission.loc_of u (Admission.goto t p m x r s) =
  if decide (t = u) then p else Admission.loc_of u s.
Proof.
  unfold Admission.loc_of, Admission.goto. simpl.
  destruct (decide (t = u)) as [->|Hne].
  - by rewrite lookup_insert_eq.
  - by rewrite lookup_insert_ne.
Qed.

Lemma loc_of_enter u t p s :
  Admission.loc_of u (Admission.enter t p s) =
  if decide (t = u) then p else Admission.loc_of u s.
Proof.
  unfold Admission.loc_of, Admission.enter. simpl.
  destruct (decide (t = u)) as [->|Hne].
  - by rewrite lookup_insert_eq.
  - by rewrite lookup_insert_ne.
Qed.

(** A transition of [t] that keeps the value of [assign_mutex] and does
    not change whether [t] holds it. *)
Lemma mutex_inv_keep t p s s' :
  mutex_inv s →
  Admission.assign_mutex (Admission.sem s') =
    Admission.assign_mutex (Admission.sem s) →
  (∀ u, Admission.loc_of u s' =
        if decide (t = u) then p else Admission.loc_of u s) →
  holds_mutex p = holds_mutex (Admission.loc_of t s) →
  mutex_inv s'.
Proof.
  intros (Hb & Hh & Hu) Hm Hloc Hp.
  assert (∀ u, holds_mutex (Admission.loc_of u s') =
               holds_mutex (Admission.loc_of u s)) as Hsame.
  { intros u. rewrite Hloc. destruct (decide (t = u)) as [<-|]; done. }
  split; [by rewrite Hm|]. split.
  - intros u. rewrite Hsame, Hm. apply Hh.
  - intros u v. rewrite !Hsame. apply Hu.
Qed.

(** [t] passes [sem_wait(&assign_mutex)]. *)
Lemma mutex_inv_wait t p m' s s' :
  mutex_inv s →
  Admission.sem_wait (Admission.assign_mutex (Admission.sem s)) = Some m' →
  Admission.assign_mutex (Admission.sem s') = m' →
  (∀ u, Admission.loc_of u s' =
        if decide (t = u) then p else Admission.loc_of u s) →
  mutex_inv s'.
Proof.
  intros (Hb & Hh & Hu) Hw Hm Hloc. unfold Admission.sem_wait in Hw.
  case_decide; simplify_eq.
  assert (Admission.assign_mutex (Admission.sem s) = 1%Z) as H1 by lia.
  assert (∀ u, holds_mutex (Admission.loc_of u s) = false) as Hfree.
  { intros u. destruct (holds_mutex (Admission.loc_of u s)) eqn:Hhu; [|done].
    rewrite (Hh u Hhu) in H1. lia. }
  assert (∀ u, holds_mutex (Admission.loc_of u s') = true → u = t) as Honly.
  { intros u. rewrite Hloc. destruct (decide (t = u)) as [<-|]; [done|].
    by rewrite Hfree. }
  split; [left; lia|]. split; [intros; lia|].
  intros u v Hu' Hv'. by rewrite (Honly u Hu'), (Honly v Hv').
Qed.

(** [t] executes [sem_post(&assign_mutex)]. *)
Lemma mutex_inv_post t p s s' :
  mutex_inv s →
  holds_mutex (Admission.loc_of t s) = true → holds_mutex p = false →
  Admission.assign_mutex (Admission.sem s') =
    Admission.sem_post (Admission.assign_mutex (Admission.sem s)) →
  (∀ u, Admission.loc_of u s' =
        if decide (t = u) then p else Admission.loc_of u s) →
  mutex_inv s'.
Proof.
  intros (Hb & Hh & Hu) Ht Hp Hm Hloc.
  rewrite (Hh t Ht) in Hm. unfold Admission.sem_post in Hm.
  assert (∀ u, holds_mutex (Admission.loc_of u s') = false) as Hfree.
  { intros u. rewrite Hloc. destruct (decide (t = u)) as [<-|Hne]; [done|].
    destruct (holds_mutex (Admission.loc_of u s)) eqn:Hhu; [|done].
    by destruct Hne; apply Hu. }
  split; [right; by rewrite Hm|]. split.
  - intros u. by rewrite Hfree.
  - intros u v. by rewrite Hfree.
Qed.

Lemma mutex_inv_call c s s' :
  mutex_inv s → Admission.do_call c s = Some s' → mutex_inv s'.
Proof.
  intros Hinv H. destruct c as [t|t|t|t|t]; simpl in H.
  - destruct (Admission.loc_of t s) eqn:Hl; simplify_eq.
    eapply (mutex_inv_keep t); [done|done|intros u; apply loc_of_enter|by rewrite Hl].
  - destruct (Admission.loc_of t s) eqn:Hl; simplify_eq.
    eapply (mutex_inv_keep t); [done|done|intros u; apply loc_of_enter|by rewrite Hl].
  - destruct (Admission.loc_of t s) eqn:Hl; simplify_eq.
    eapply (mutex_inv_keep t); [done|done|intros u; apply loc_of_enter|by rewrite Hl].
  - destruct (Admission.loc_of t s) eqn:Hl; simplify_eq.
    eapply (mutex_inv_keep t); [done|done|intros u; apply loc_of_enter|by rewrite Hl].
  - unfold Admission.step in H.
    destruct (Admission.loc_of t s) eqn:Hl; try done;
      unfold Admission.rag_readerWait, Admission.rag_readerSignal,
        Admission.rag_writerWait, Admission.rag_writerSignal in H;
      rewrite Hl in H.
    + destruct (Admission.sem_wait _) as [m'|] eqn:Hw; simplify_eq/=.
      eapply (mutex_inv_wait t); [done|done|done|intros u; apply loc_of_goto].
    + simplify_eq.
      eapply (mutex_inv_keep t); [done|done|intros u; apply loc_of_goto|].
      rewrite Hl. by case_decide.
    + destruct (Admission.sem_wait _) as [x'|] eqn:Hw; simplify_eq/=.
      eapply (mutex_inv_keep t); [done|done|intros u; apply loc_of_goto|by rewrite Hl].
    + simplify_eq.
      eapply (mutex_inv_post t Admission.Reading); [done|by rewrite Hl|done|done|intros u; apply loc_of_goto].
    + destruct (Admission.sem_wait _) as [m'|] eqn:Hw; simplify_eq/=.
      eapply (mutex_inv_wait t); [done|done|done|intros u; apply loc_of_goto].
    + simplify_eq.
      eapply (mutex_inv_keep t); [done|done|intros u; apply loc_of_goto|].
      rewrite Hl. by case_decide.
    + simplify_eq.
      eapply (mutex_inv_keep t); [done|done|intros u; apply loc_of_goto|by rewrite Hl].
    + simplify_eq.
      eapply (mutex_inv_post t Admission.Out); [done|by rewrite Hl|done|done|intros u; apply loc_of_goto].
    + destruct (Admission.sem_wait _) as [m'|] eqn:Hw; simplify_eq/=.
      eapply (mutex_inv_wait t); [done|done|done|intros u; apply loc_of_goto].
    + simplify_eq.
      eapply (mutex_inv_post t Admission.Out); [done|by rewrite Hl|done|done|intros u; apply loc_of_goto].
Qed.

Lemma mutex_inv_run cs : ∀ s s',
  mutex_inv s → Admission.run cs s = Some s' → mutex_inv s'.
Proof.
  induction cs as [|c cs IH]; intros s s' Hinv H; simpl in H.
  - by simplify_eq.
  - destruct (Admission.do_call c s) as [s1|] eqn:Hc; simplify_eq/=.
    eapply IH; [|done]. by eapply mutex_inv_call.
Qed.

Lemma mutex_inv_init : mutex_inv Admission.init.
Proof. split; [by right|]. split; intros; done. Qed.

(** X14. In every reachable state of the admission scheme
    [assign_mutex] is 0 or 1 and at most one thread holds write
    permission; while a thread holds it, no other thread can execute a
    statement of [rag_readerWait], [rag_readerSignal], [rag_writerWait]
    or [rag_writerSignal]: writers exclude each other, and no reader
    enters or leaves. *)
Theorem X14_writers_exclude cs s :
  Admission.run cs Admission.init = Some s →
  (Admission.assign_mutex (Admission.sem s) = 0%Z ∨
   Admission.assign_mutex (Admission.sem s) = 1%Z) ∧
  (∀ t u, Admission.loc_of t s = Admission.Writing →
          Admission.loc_of u s = Admission.Writing → t = u) ∧
  (∀ t u, Admission.loc_of t s = Admission.Writing → u ≠ t →
          Admission.step u s = None).
Proof.
  intros Hrun.
  destruct (mutex_inv_run cs _ _ mutex_inv_init Hrun) as (Hb & Hh & Hu).
  split; [done|]. split.
  - intros t u Ht Hu'. apply Hu; by rewrite ?Ht, ?Hu'.
  - intros t u Ht Hne.
    assert (Admission.assign_mutex (Admission.sem s) = 0%Z) as Hm.
    { apply (Hh t). by rewrite Ht. }
    assert (holds_mutex (Admission.loc_of u s) = false) as Hfree.
    { destruct (holds_mutex (Admission.loc_of u s)) eqn:Hhu; [|done].
      destruct Hne. apply Hu; [done|by rewrite Ht]. }
    unfold Admission.step, Admission.rag_readerWait,
      Admission.rag_readerSignal, Admission.rag_writerWait.
    destruct (Admission.loc_of u s); try done; by rewrite Hm.
Qed.

Lemma X14_writers_exclude_witness :
  Admission.run sched_reader_writer Admission.init =
    Some (adm_final sched_reader_writer) ∧
  ((Admission.assign_mutex (Admission.sem (adm_final sched_reader_writer)) = 0%Z ∨
    Admission.assign_mutex (Admission.sem (adm_final sched_reader_writer)) = 1%Z) ∧
   (∀ t u, Admission.loc_of t (adm_final sched_reader_writer) = Admission.Writing →
           Admission.loc_of u (adm_final sched_reader_writer) = Admission.Writing →
           t = u) ∧
   (∀ t u, Admission.loc_of t (adm_final sched_reader_writer) = Admission.Writing →
           u ≠ t → Admission.step u (adm_final sched_reader_writer) = None)).
Proof.
  split; [vm_compute; reflexivity|].
  apply (X14_writers_exclude sched_reader_writer (adm_final sched_reader_writer)).
  vm_compute. reflexivity.
Defined.

Lemma adm_run_call c cs s s1 :
  Admission.do_call c s = Some s1 →
  Admission.run (c :: cs) s = Admission.run cs s1.
Proof. intros H. simpl. by rewrite H. Qed.

Lemma adm_go t s s1 :
  Admission.step t s = Some s1 → Admission.do_call (Admission.Go t) s = Some s1.
Proof. done. Qed.

Lemma sem_wait_pos v : (0 < v)%Z → Admission.sem_wait v = Some (v - 1)%Z.
Proof. intros H. unfold Admission.sem_wait. by rewrite decide_True. Qed.

Lemma sems_eta (c : Admission.sems) m x r :
  Admission.assign_mutex c = m → Admission.assign_mutexRw c = x →
  Admission.assign_readers c = r → Admission.mk_sems m x r = c.
Proof. destruct c; simpl. by intros -> -> ->. Qed.

Ltac adm_exec :=
  repeat first
    [ rewrite lookup_insert_eq
    | rewrite sem_wait_pos by lia
    | rewrite decide_True by lia
    | rewrite decide_False by lia
    | progress simpl ].

Ltac adm_unfold :=
  unfold Admission.run, Admission.do_call, Admission.step,
    Admission.rag_readerWait, Admission.rag_readerSignal,
    Admission.rag_writerWait, Admission.rag_writerSignal,
    Admission.loc_of, Admission.goto, Admission.enter, Admission.sem_post in *;
  simpl in *.

Ltac adm_close :=
  unfold Admission.sem_post;
  repeat split; simpl; rewrite ?lookup_insert_eq; simpl;
  try done; try lia; try (f_equal; lia).

(** X15. A thread that takes read permission and gives it back while
    no other thread moves leaves both semaphores and the reader count as
    they were, provided that [assign_mutex] is free and, if the thread
    is the first reader, that [assign_mutexRw] is free; in between the
    reader count is one higher.  The same holds for write permission,
    which needs [assign_mutex] only and never changes [assign_mutexRw]. *)
Theorem X15_permission_round_trip t s :
  Admission.loc_of t s = Admission.Out →
  (0 < Admission.assign_mutex (Admission.sem s))%Z →
  (Admission.assign_readers (Admission.sem s) = 0%Z →
   0 < Admission.assign_mutexRw (Admission.sem s))%Z →
  (∃ n1 s1 n2 s2,
    Admission.run (Admission.ReaderWait t :: replicate n1 (Admission.Go t)) s
      = Some s1 ∧
    Admission.loc_of t s1 = Admission.Reading ∧
    Admission.assign_readers (Admission.sem s1) =
      (Admission.assign_readers (Admission.sem s) + 1)%Z ∧
    Admission.assign_mutex (Admission.sem s1) =
      Admission.assign_mutex (Admission.sem s) ∧
    Admission.run (Admission.ReaderSignal t :: replicate n2 (Admission.Go t)) s1
      = Some s2 ∧
    Admission.loc_of t s2 = Admission.Out ∧
    Admission.sem s2 = Admission.sem s) ∧
  (∃ s1 s2,
    Admission.run [Admission.WriterWait t; Admission.Go t] s = Some s1 ∧
    Admission.loc_of t s1 = Admission.Writing ∧
    Admission.assign_mutex (Admission.sem s1) =
      (Admission.assign_mutex (Admission.sem s) - 1)%Z ∧
    Admission.assign_mutexRw (Admission.sem s1) =
      Admission.assign_mutexRw (Admission.sem s) ∧
    Admission.run [Admission.WriterSignal t; Admission.Go t] s1 = Some s2 ∧
    Admission.loc_of t s2 = Admission.Out ∧
    Admission.sem s2 = Admission.sem s).
Proof.
  intros Hl Hm Hx. destruct s as [[m x r] ls]. split.
  - destruct (decide (r = 0%Z)) as [->|Hr].
    + exists 4. eexists. exists 4. eexists. adm_unfold. rewrite Hl.
      adm_exec. split; [reflexivity|]. adm_exec. adm_close.
    + exists 3. eexists. exists 3. eexists. adm_unfold. rewrite Hl.
      adm_exec. split; [reflexivity|]. adm_exec. adm_close.
  - eexists. eexists. adm_unfold. rewrite Hl.
    adm_exec. split; [reflexivity|]. adm_exec. adm_close.
Qed.

Lemma X15_permission_round_trip_witness :
  Admission.loc_of 1 Admission.init = Admission.Out ∧
  (0 < Admission.assign_mutex (Admission.sem Admission.init))%Z ∧
  (Admission.assign_readers (Admission.sem Admission.init) = 0%Z →
   0 < Admission.assign_mutexRw (Admission.sem Admission.init))%Z ∧
  ((∃ n1 s1 n2 s2,
    Admission.run (Admission.ReaderWait 1 :: replicate n1 (Admission.Go 1))
      Admission.init = Some s1 ∧
    Admission.loc_of 1 s1 = Admission.Reading ∧
    Admission.assign_readers (Admission.sem s1) =
      (Admission.assign_readers (Admission.sem Admission.init) + 1)%Z ∧
    Admission.assign_mutex (Admission.sem s1) =
      Admission.assign_mutex (Admission.sem Admission.init) ∧
    Admission.run (Admission.ReaderSignal 1 :: replicate n2 (Admission.Go 1)) s1
      = Some s2 ∧
    Admission.loc_of 1 s2 = Admission.Out ∧
    Admission.sem s2 = Admission.sem Admission.init) ∧
   (∃ s1 s2,
    Admission.run [Admission.WriterWait 1; Admission.Go 1] Admission.init
      = Some s1 ∧
    Admission.loc_of 1 s1 = Admission.Writing ∧
    Admission.assign_mutex (Admission.sem s1) =
      (Admission.assign_mutex (Admission.sem Admission.init) - 1)%Z ∧
    Admission.assign_mutexRw (Admission.sem s1) =
      Admission.assign_mutexRw (Admission.sem Admission.init) ∧
    Admission.run [Admission.WriterSignal 1; Admission.Go 1] s1 = Some s2 ∧
    Admission.loc_of 1 s2 = Admission.Out ∧
    Admission.sem s2 = Admission.sem Admission.init)).
Proof.
  split; [reflexivity|]. split; [reflexivity|]. split; [reflexivity|].
  apply (X15_permission_round_trip 1 Admission.init); reflexivity.
Defined.
